(** * gen_data.py: the healthcare test-data generator, embedded and verified

    The script [src/data/gen_data.py] draws random field values, buffers the
    rows of four tables in batches and sends every batch to PostgreSQL.  The
    embedding below follows the script function by function.  Three things
    live outside the script and are modelled explicitly:

    - the two random sources (the [random] module and the [Faker] instance)
      are tapes of raw draws, so every theorem that quantifies over the
      tapes speaks about every possible outcome of the generators;
    - the calendar: dates are day numbers in [Z], and the dates that Faker
      derives from relative strings such as ["-15y"] come from an [Env];
    - the database connection: a record with the committed tables, the
      tables as the open transaction sees them, the identity sequences, a
      plan of the calls that are going to raise and a log of the calls made.
*)

From Stdlib Require Import List ZArith Lia Bool Arith String Ascii.
Import ListNotations.

Local Open Scope string_scope.
Local Open Scope list_scope.
Local Open Scope nat_scope.

(* ================================================================== *)
(** ** Strings as Python uses them here *)

(** [s[:n]] *)
Fixpoint str_take (n : nat) (s : string) : string :=
  match n, s with
  | S n', String c s' => String c (str_take n' s')
  | _, _ => EmptyString
  end.

Definition is_upper (c : ascii) : bool :=
  let n := nat_of_ascii c in (65 <=? n) && (n <=? 90).

Definition is_lower (c : ascii) : bool :=
  let n := nat_of_ascii c in (97 <=? n) && (n <=? 122).

Definition is_digit (c : ascii) : bool :=
  let n := nat_of_ascii c in (48 <=? n) && (n <=? 57).

Definition is_letter (c : ascii) : bool := is_upper c || is_lower c.

Definition lower_char (c : ascii) : ascii :=
  if is_upper c then ascii_of_nat (nat_of_ascii c + 32) else c.

(** [s.lower()], on the bytes of the string *)
Fixpoint lower (s : string) : string :=
  match s with
  | EmptyString => EmptyString
  | String c s' => String (lower_char c) (lower s')
  end.

(** [s.replace(' ', '')] *)
Fixpoint remove_spaces (s : string) : string :=
  match s with
  | EmptyString => EmptyString
  | String c s' =>
      if Ascii.eqb c " "%char then remove_spaces s' else String c (remove_spaces s')
  end.

Fixpoint str_forallb (p : ascii -> bool) (s : string) : bool :=
  match s with
  | EmptyString => true
  | String c s' => p c && str_forallb p s'
  end.

(* ================================================================== *)
(** ** Rows of the four tables (the tuples the script builds) *)

Record Practice := mkPractice {
  practice_name : string;
  address_line1 : string;
  address_line2 : option string;
  city : string;
  p_state : string;
  zip_code : string;
  p_phone : string;
  p_email : string;
  website : option string
}.

Record Doctor := mkDoctor {
  first_name : string;
  last_name : string;
  specialty : string;
  d_email : string;
  d_phone : string;
  date_of_birth_of : Z
}.

Record License := mkLicense {
  l_doctor_id : nat;
  license_number : string;
  license_type : string;
  l_state : string;
  issue_date : Z;
  expiry_date : Z;
  l_status : string
}.

Record Association := mkAssociation {
  a_doctor_id : nat;
  a_practice_id : nat;
  role : string;
  start_date : Z;
  end_date : option Z;
  is_primary : bool;
  hours_per_week : Z
}.

(* ================================================================== *)
(** ** The database connection *)

Record Tables := mkTables {
  practices : list (nat * Practice);
  doctors : list (nat * Doctor);
  licenses : list License;
  doctor_practices : list Association
}.

Definition no_rows : Tables := mkTables [] [] [] [].

(** A statement sent through the connection. *)
Inductive SinkCall :=
| Truncate
| InsertPractices (rows : list (nat * Practice))
| InsertDoctors (rows : list (nat * Doctor))
| InsertLicenses (rows : list License)
| InsertDoctorPractices (rows : list Association)
| Commit
| Close.

(** [faults] holds one flag per call still to come: [true] makes that call
    raise; a call past the end of the plan succeeds.  [log] lists the calls
    made so far, oldest first, each with [true] when it returned and [false]
    when it raised. *)
Record Conn := mkConn {
  committed : Tables;
  working : Tables;
  next_practice_id : nat;
  next_doctor_id : nat;
  faults : list bool;
  log : list (SinkCall * bool)
}.

(* ================================================================== *)
(** ** The world the script runs in, and its monad *)

Record World := mkWorld {
  rnd : list nat;        (* raw draws of the [random] module *)
  fk_num : list nat;     (* raw draws of the Faker instance *)
  fk_txt : list string;  (* the texts Faker's providers return, in call order *)
  conn : Conn
}.

Inductive Exn :=
| ValueError
| IndexError
| DbError
| SystemExit (code : nat).

Inductive Result (A : Type) :=
| Ok (a : A) (w : World)
| Raise (e : Exn) (w : World).
Arguments Ok {A} a w.
Arguments Raise {A} e w.

Definition M (A : Type) : Type := World -> Result A.

Definition ret {A} (a : A) : M A := fun w => Ok a w.

Definition raise {A} (e : Exn) : M A := fun w => Raise e w.

Definition bind {A B} (m : M A) (k : A -> M B) : M B :=
  fun w => match m w with
           | Ok a w' => k a w'
           | Raise e w' => Raise e w'
           end.

Declare Scope py_scope.
Delimit Scope py_scope with py.
Notation "x <- m ;; k" := (bind m (fun x => k))
  (at level 100, m at next level, right associativity) : py_scope.
Notation "' pat <- m ;; k" := (bind m (fun x => match x with pat => k end))
  (at level 100, pat pattern, m at next level, right associativity) : py_scope.
Notation "m ;;; k" := (bind m (fun _ => k))
  (at level 100, right associativity) : py_scope.
Local Open Scope py_scope.

(** [for x in l: s = body(x, s)] with the loop variables threaded as [s]. *)
Fixpoint for_each {A S} (l : list A) (body : A -> S -> M S) (s : S) : M S :=
  match l with
  | [] => ret s
  | x :: l' => s' <- body x s ;; for_each l' body s'
  end.

(** [range(n)] and [enumerate(l)] *)
Definition range (n : nat) : list nat := seq 0 n.

Definition enumerate {A} (l : list A) : list (nat * A) :=
  combine (seq 0 (List.length l)) l.

(* ================================================================== *)
(** ** The [random] module *)

(** One raw draw from the module's generator.  An exhausted tape yields 0. *)
Definition draw : M nat :=
  fun w => match rnd w with
           | [] => Ok 0 w
           | r :: t => Ok r (mkWorld t (fk_num w) (fk_txt w) (conn w))
           end.

(** [random.randint(a, b)]: an integer in [a, b], [ValueError] on an empty
    range. *)
Definition randint (a b : Z) : M Z :=
  if (b <? a)%Z then raise ValueError
  else r <- draw ;; ret (a + Z.of_nat r mod (b - a + 1))%Z.

(** [random.choice(seq)]: [IndexError] on an empty sequence. *)
Definition choice {A} (l : list A) : M A :=
  r <- draw ;;
  match nth_error l (r mod List.length l) with
  | Some x => ret x
  | None => raise IndexError
  end.

(** [random.random() < p] for a threshold [p] given in thousandths. *)
Definition random_below (permille : nat) : M bool :=
  r <- draw ;; ret (r mod 1000 <? permille).

Fixpoint pick_weighted {A} (l : list (A * nat)) (k : nat) : option A :=
  match l with
  | [] => None
  | (x, wt) :: l' => if k <? wt then Some x else pick_weighted l' (k - wt)
  end.

(** [random.choices(population, weights=...)[0]], the weights in thousandths. *)
Definition choices1 {A} (l : list (A * nat)) : M A :=
  r <- draw ;;
  match pick_weighted l (r mod list_sum (map snd l)) with
  | Some x => ret x
  | None => raise IndexError
  end.

Definition remove_nth {A} (j : nat) (l : list A) : list A :=
  firstn j l ++ skipn (S j) l.

Fixpoint sample_from {A} (pop : list A) (k : nat) : M (list A) :=
  match k with
  | 0 => ret []
  | S k' =>
      r <- draw ;;
      let j := r mod List.length pop in
      match nth_error pop j with
      | Some x => rest <- sample_from (remove_nth j pop) k' ;; ret (x :: rest)
      | None => raise ValueError
      end
  end.

(** [random.sample(population, k)]: [k] elements at pairwise different
    positions, in selection order; [ValueError] when [k] is negative or
    larger than the population. *)
Definition sample {A} (pop : list A) (k : Z) : M (list A) :=
  if ((k <? 0) || (Z.of_nat (List.length pop) <? k))%Z then raise ValueError
  else sample_from pop (Z.to_nat k).

(* ================================================================== *)
(** ** The Faker instance and the calendar *)

(** [today] is the day number of [date.today()]; [days_of s] is the signed
    number of days that Faker's date-string parser gives for a relative
    string [s]; [birth_window lo hi] is the pair of dates between which
    [date_of_birth] draws for ages [lo] to [hi]. *)
Record Env := mkEnv {
  today : Z;
  days_of : string -> Z;
  birth_window : Z -> Z -> Z * Z
}.

(** What the script passes as a date: a relative string or a date object. *)
Inductive DateArg :=
| Rel (s : string)
| Abs (d : Z).

Definition parse_date (env : Env) (a : DateArg) : Z :=
  match a with
  | Abs d => d
  | Rel s => if String.eqb s "today" then today env else (today env + days_of env s)%Z
  end.

Definition fake_draw : M nat :=
  fun w => match fk_num w with
           | [] => Ok 0 w
           | r :: t => Ok r (mkWorld (rnd w) t (fk_txt w) (conn w))
           end.

(** A provider that returns text: the next text of the tape, the empty
    string once the tape is exhausted. *)
Definition fake_text : M string :=
  fun w => match fk_txt w with
           | [] => Ok "" w
           | s :: t => Ok s (mkWorld (rnd w) (fk_num w) t (conn w))
           end.

Definition fake_company := fake_text.
Definition fake_street_address := fake_text.
Definition fake_secondary_address := fake_text.
Definition fake_city := fake_text.
Definition fake_zipcode := fake_text.
Definition fake_phone_number := fake_text.
Definition fake_company_email := fake_text.
Definition fake_first_name := fake_text.
Definition fake_last_name := fake_text.
Definition fake_email := fake_text.

(** [fake.date_between(start_date, end_date)]: a date of the closed
    interval, [ValueError] when the interval is empty. *)
Definition date_between (env : Env) (start_date end_date : DateArg) : M Z :=
  let lo := parse_date env start_date in
  let hi := parse_date env end_date in
  if (hi <? lo)%Z then raise ValueError
  else r <- fake_draw ;; ret (lo + Z.of_nat r mod (hi - lo + 1))%Z.

(** [fake.date_of_birth(minimum_age, maximum_age)]: the first day of the
    window is never returned, the day after it is returned instead. *)
Definition date_of_birth (env : Env) (minimum_age maximum_age : Z) : M Z :=
  let '(lo, hi) := birth_window env minimum_age maximum_age in
  dob <- date_between env (Abs lo) (Abs hi) ;;
  ret (if (dob =? lo)%Z then dob + 1 else dob)%Z.

Definition digit_char (d : nat) : ascii := ascii_of_nat (48 + d mod 10).

(** [string.ascii_letters]: the lower-case letters, then the upper-case. *)
Definition letter_char (j : nat) : ascii :=
  let j := j mod 52 in
  if j <? 26 then ascii_of_nat (97 + j) else ascii_of_nat (65 + (j - 26)).

(** [fake.numerify(text)]: every [#] becomes a digit.  (The other
    placeholders of Faker do not occur in the script.) *)
Fixpoint numerify (text : string) : M string :=
  match text with
  | EmptyString => ret EmptyString
  | String c rest =>
      if Ascii.eqb c "#"%char
      then r <- fake_draw ;; s <- numerify rest ;; ret (String (digit_char r) s)
      else s <- numerify rest ;; ret (String c s)
  end.

(** [fake.lexify(text)]: every [?] becomes an ASCII letter. *)
Fixpoint lexify (text : string) : M string :=
  match text with
  | EmptyString => ret EmptyString
  | String c rest =>
      if Ascii.eqb c "?"%char
      then r <- fake_draw ;; s <- lexify rest ;; ret (String (letter_char r) s)
      else s <- lexify rest ;; ret (String c s)
  end.

(* ================================================================== *)
(** ** Configuration and vocabularies *)

(** The module-level counts of the script, and the [batch_size] local of
    each of its four generators. *)
Record Config := mkConfig {
  NUM_DOCTORS : nat;
  NUM_PRACTICES : nat;
  MAX_LICENSES_PER_DOCTOR : Z;
  MAX_PRACTICES_PER_DOCTOR : Z;
  practices_batch_size : nat;
  doctors_batch_size : nat;
  licenses_batch_size : nat;
  doctor_practices_batch_size : nat
}.

(** The values written in the script. *)
Definition script_config : Config :=
  mkConfig (1000 * 1000) 1000 3 3 100 (10 * 1000) (100 * 1000) (100 * 1000).

Definition SPECIALTIES : list string :=
  ["Family Medicine"; "Internal Medicine"; "Pediatrics"; "Cardiology";
   "Dermatology"; "Endocrinology"; "Gastroenterology"; "Neurology";
   "Obstetrics and Gynecology"; "Oncology"; "Ophthalmology"; "Orthopedics";
   "Psychiatry"; "Radiology"; "Surgery"; "Urology"; "Emergency Medicine";
   "Anesthesiology"; "Pathology"; "Physical Medicine"; "Rheumatology"].

Definition LICENSE_TYPES : list string :=
  ["Medical License"; "DEA"; "Board Certification"; "State Controlled Substance"].

Definition STATES : list string :=
  ["AL"; "AK"; "AZ"; "AR"; "CA"; "CO"; "CT"; "DE"; "FL"; "GA";
   "HI"; "ID"; "IL"; "IN"; "IA"; "KS"; "KY"; "LA"; "ME"; "MD";
   "MA"; "MI"; "MN"; "MS"; "MO"; "MT"; "NE"; "NV"; "NH"; "NJ";
   "NM"; "NY"; "NC"; "ND"; "OH"; "OK"; "OR"; "PA"; "RI"; "SC";
   "SD"; "TN"; "TX"; "UT"; "VT"; "VA"; "WA"; "WV"; "WI"; "WY"].

Definition LICENSE_STATUSES : list string :=
  ["Active"; "Expired"; "Suspended"; "Revoked"].

Definition ROLES : list string :=
  ["Primary Care Physician"; "Specialist"; "Consultant"; "Department Head";
   "Medical Director"; "Attending Physician"; "Resident"; "Fellow"].

Definition PRACTICE_SUFFIXES : list string :=
  ["Medical Center"; "Clinic"; "Healthcare"; "Hospital"; "Medical Group";
   "Physicians"].

(* ================================================================== *)
(** ** Calls on the connection *)

Definition set_conn (w : World) (c : Conn) : World :=
  mkWorld (rnd w) (fk_num w) (fk_txt w) c.

(** The connection after a call that raised, and after one that returned
    (before the effect of the statement is applied).  Either way the call
    uses up one flag of the plan and is logged. *)
Definition call_failed (c : Conn) (sc : SinkCall) : Conn :=
  mkConn (committed c) (working c) (next_practice_id c) (next_doctor_id c)
    (tl (faults c)) (log c ++ [(sc, false)]).

Definition call_done (c : Conn) (sc : SinkCall) : Conn :=
  mkConn (committed c) (working c) (next_practice_id c) (next_doctor_id c)
    (tl (faults c)) (log c ++ [(sc, true)]).

(** One call: it either raises, leaving the tables as they were, or
    applies its effect. *)
Definition sink_call (sc : SinkCall) (effect : Conn -> Conn) : M unit :=
  fun w =>
    if hd false (faults (conn w))
    then Raise DbError (set_conn w (call_failed (conn w) sc))
    else Ok tt (set_conn w (effect (call_done (conn w) sc))).

Definition with_working (c : Conn) (t : Tables) : Conn :=
  mkConn (committed c) t (next_practice_id c) (next_doctor_id c) (faults c) (log c).

(** [TRUNCATE doctor_practices, licenses, doctors, practices RESTART
    IDENTITY CASCADE] *)
Definition execute_truncate : M unit :=
  sink_call Truncate
    (fun c => mkConn (committed c) no_rows 1 1 (faults c) (log c)).

(** [conn.commit()] *)
Definition conn_commit : M unit :=
  sink_call Commit
    (fun c => mkConn (working c) (working c) (next_practice_id c)
                (next_doctor_id c) (faults c) (log c)).

(** [conn.close()] *)
Definition conn_close : M unit :=
  fun w =>
    let c := conn w in
    Ok tt (set_conn w (mkConn (committed c) (working c) (next_practice_id c)
                         (next_doctor_id c) (faults c) (log c ++ [(Close, true)]))).

Definition conn_state : M Conn := fun w => Ok (conn w) w.

(** [INSERT INTO practices ... RETURNING practice_id] followed by
    [cur.fetchall()]: the rows get consecutive identities, returned in the
    order of the rows. *)
Definition insert_practices (batch : list Practice) : M (list nat) :=
  c <- conn_state ;;
  let new_ids := seq (next_practice_id c) (List.length batch) in
  let stored := combine new_ids batch in
  sink_call (InsertPractices stored)
    (fun c => mkConn (committed c)
                (mkTables (practices (working c) ++ stored) (doctors (working c))
                   (licenses (working c)) (doctor_practices (working c)))
                (next_practice_id c + List.length batch) (next_doctor_id c)
                (faults c) (log c)) ;;;
  ret new_ids.

Definition insert_doctors (batch : list Doctor) : M (list nat) :=
  c <- conn_state ;;
  let new_ids := seq (next_doctor_id c) (List.length batch) in
  let stored := combine new_ids batch in
  sink_call (InsertDoctors stored)
    (fun c => mkConn (committed c)
                (mkTables (practices (working c)) (doctors (working c) ++ stored)
                   (licenses (working c)) (doctor_practices (working c)))
                (next_practice_id c) (next_doctor_id c + List.length batch)
                (faults c) (log c)) ;;;
  ret new_ids.

Definition insert_licenses (batch : list License) : M unit :=
  sink_call (InsertLicenses batch)
    (fun c => with_working c
                (mkTables (practices (working c)) (doctors (working c))
                   (licenses (working c) ++ batch) (doctor_practices (working c)))).

Definition insert_doctor_practices (batch : list Association) : M unit :=
  sink_call (InsertDoctorPractices batch)
    (fun c => with_working c
                (mkTables (practices (working c)) (doctors (working c))
                   (licenses (working c)) (doctor_practices (working c) ++ batch))).

(* ================================================================== *)
(** ** The script's functions *)

(** [connect_to_db]: [psycopg2.connect] either gives the connection or
    raises, and then the script prints the error and calls [exit(1)]. *)
Definition connect_to_db (reachable : bool) : M unit :=
  if reachable then ret tt else raise (SystemExit 1).

Definition clear_tables : M unit :=
  execute_truncate ;;; conn_commit.

(** The tuple [practice] of one pass of the loop. *)
Definition make_practice : M Practice :=
  company <- fake_company ;;
  suffix <- choice PRACTICE_SUFFIXES ;;
  let practice_name := (company ++ " " ++ suffix)%string in
  line1 <- fake_street_address ;;
  with_line2 <- random_below 300 ;;
  line2 <- (if with_line2 : bool
            then s <- fake_secondary_address ;; ret (Some s)
            else ret None) ;;
  town <- fake_city ;;
  state <- choice STATES ;;
  zip <- fake_zipcode ;;
  phone <- fake_phone_number ;;
  email <- fake_company_email ;;
  with_website <- random_below 800 ;;
  ret (mkPractice practice_name line1 line2 town state
         (str_take 10 zip) (str_take 20 phone) (str_take 255 email)
         (if with_website : bool
          then Some (str_take 255
                       ("www." ++ remove_spaces (lower practice_name) ++ ".com")%string)
          else None)).

(** The loop of [generate_practices]; its variables are [practice_ids] and
    [practice_batch]. *)
Definition practices_loop (cfg : Config) : M (list nat * list Practice) :=
  let batch_size := practices_batch_size cfg in
  for_each (range (NUM_PRACTICES cfg))
    (fun i '(practice_ids, practice_batch) =>
       practice <- make_practice ;;
       let practice_batch := practice_batch ++ [practice] in
       if (batch_size <=? List.length practice_batch)
          || (Z.of_nat i =? Z.of_nat (NUM_PRACTICES cfg) - 1)%Z
       then
         new_ids <- insert_practices practice_batch ;;
         conn_commit ;;;
         ret (practice_ids ++ new_ids, [])
       else ret (practice_ids, practice_batch))
    ([], []).

Definition generate_practices (cfg : Config) : M (list nat) :=
  '(practice_ids, _) <- practices_loop cfg ;;
  ret practice_ids.

(** The tuple [doctor] of one pass of the loop. *)
Definition make_doctor (env : Env) : M Doctor :=
  first <- fake_first_name ;;
  last <- fake_last_name ;;
  spec <- choice SPECIALTIES ;;
  email <- fake_email ;;
  phone <- fake_phone_number ;;
  dob <- date_of_birth env 25 70 ;;
  ret (mkDoctor first last spec email (str_take 20 phone) dob).

(** The loop of [generate_doctors]; its variables are [doctor_ids] and
    [doctor_batch]. *)
Definition doctors_loop (env : Env) (cfg : Config) : M (list nat * list Doctor) :=
  let batch_size := doctors_batch_size cfg in
  for_each (range (NUM_DOCTORS cfg))
    (fun i '(doctor_ids, doctor_batch) =>
       doctor <- make_doctor env ;;
       let doctor_batch := doctor_batch ++ [doctor] in
       if (batch_size <=? List.length doctor_batch)
          || (Z.of_nat i =? Z.of_nat (NUM_DOCTORS cfg) - 1)%Z
       then
         new_ids <- insert_doctors doctor_batch ;;
         conn_commit ;;;
         ret (doctor_ids ++ new_ids, [])
       else ret (doctor_ids, doctor_batch))
    ([], []).

Definition generate_doctors (env : Env) (cfg : Config) : M (list nat) :=
  '(doctor_ids, _) <- doctors_loop env cfg ;;
  ret doctor_ids.

(** The tuple [license_info] of one pass of the inner loop. *)
Definition make_license (env : Env) (doctor_id : nat) : M License :=
  state <- choice STATES ;;
  issue <- date_between env (Rel "-15y") (Rel "today") ;;
  days <- randint (365 * 1) (365 * 10) ;;
  let expiry := (issue + days)%Z in
  digits <- numerify "######" ;;
  letters <- lexify "???" ;;
  ltype <- choice LICENSE_TYPES ;;
  status <- choices1 (combine LICENSE_STATUSES [800; 150; 30; 20]) ;;
  ret (mkLicense doctor_id (state ++ "-" ++ digits ++ "-" ++ letters)%string
         ltype state issue expiry status).

(** The inner loop of [generate_licenses], [for _ in range(num_licenses)];
    its variables are [license_batch] and [licenses_count]. *)
Definition doctor_licenses_loop (env : Env) (cfg : Config) (doctor_id : nat)
    (num_licenses : nat) (st : list License * nat) : M (list License * nat) :=
  let batch_size := licenses_batch_size cfg in
  for_each (range num_licenses)
    (fun _ '(license_batch, licenses_count) =>
       license_info <- make_license env doctor_id ;;
       let license_batch := license_batch ++ [license_info] in
       let licenses_count := licenses_count + 1 in
       if batch_size <=? List.length license_batch
       then
         insert_licenses license_batch ;;;
         conn_commit ;;;
         ret ([], licenses_count)
       else ret (license_batch, licenses_count))
    st.

(** The outer loop, [for doctor_id in doctor_ids]. *)
Definition licenses_loop (env : Env) (cfg : Config) (doctor_ids : list nat)
  : M (list License * nat) :=
  for_each doctor_ids
    (fun doctor_id st =>
       num_licenses <- randint 1 (MAX_LICENSES_PER_DOCTOR cfg) ;;
       doctor_licenses_loop env cfg doctor_id (Z.to_nat num_licenses) st)
    ([], 0).

Definition generate_licenses (env : Env) (cfg : Config) (doctor_ids : list nat)
  : M unit :=
  '(license_batch, licenses_count) <- licenses_loop env cfg doctor_ids ;;
  match license_batch with
  | [] => ret tt
  | _ :: _ => insert_licenses license_batch ;;; conn_commit
  end.

(** The tuple [association] of one pass of the inner loop. *)
Definition make_association (env : Env) (doctor_id i practice_id : nat)
  : M Association :=
  start <- date_between env (Rel "-10y") (Rel "-1m") ;;
  open_ended <- random_below 800 ;;
  finish <- (if open_ended : bool
             then ret None
             else d <- date_between env (Abs start) (Rel "+2y") ;; ret (Some d)) ;;
  duty <- choice ROLES ;;
  hours <- randint 4 40 ;;
  ret (mkAssociation doctor_id practice_id duty start finish (i =? 0) hours).

(** The inner loop of [generate_doctor_practices],
    [for i, practice_id in enumerate(doctor_practices)]; its variables are
    [doctor_practice_batch] and [associations_count]. *)
Definition doctor_associations_loop (env : Env) (cfg : Config) (doctor_id : nat)
    (doctor_practices : list nat) (st : list Association * nat)
  : M (list Association * nat) :=
  let batch_size := doctor_practices_batch_size cfg in
  for_each (enumerate doctor_practices)
    (fun '(i, practice_id) '(doctor_practice_batch, associations_count) =>
       association <- make_association env doctor_id i practice_id ;;
       let doctor_practice_batch := doctor_practice_batch ++ [association] in
       let associations_count := associations_count + 1 in
       if batch_size <=? List.length doctor_practice_batch
       then
         insert_doctor_practices doctor_practice_batch ;;;
         conn_commit ;;;
         ret ([], associations_count)
       else ret (doctor_practice_batch, associations_count))
    st.

(** The outer loop, [for doctor_id in doctor_ids]. *)
Definition associations_loop (env : Env) (cfg : Config)
    (doctor_ids practice_ids : list nat) : M (list Association * nat) :=
  for_each doctor_ids
    (fun doctor_id st =>
       num_practices <- randint 1 (MAX_PRACTICES_PER_DOCTOR cfg) ;;
       doctor_practices <-
         sample practice_ids
           (Z.min num_practices (Z.of_nat (List.length practice_ids))) ;;
       doctor_associations_loop env cfg doctor_id doctor_practices st)
    ([], 0).

Definition generate_doctor_practices (env : Env) (cfg : Config)
    (doctor_ids practice_ids : list nat) : M unit :=
  '(doctor_practice_batch, associations_count) <-
    associations_loop env cfg doctor_ids practice_ids ;;
  match doctor_practice_batch with
  | [] => ret tt
  | _ :: _ => insert_doctor_practices doctor_practice_batch ;;; conn_commit
  end.

Inductive Outcome := Cancelled | Completed.

(** [main], with the line read from standard input as [answer]. *)
Definition main (env : Env) (cfg : Config) (reachable : bool) (answer : string)
  : M Outcome :=
  connect_to_db reachable ;;;
  if negb (String.eqb (lower answer) "y")
  then conn_close ;;; ret Cancelled
  else
    clear_tables ;;;
    practice_ids <- generate_practices cfg ;;
    doctor_ids <- generate_doctors env cfg ;;
    generate_licenses env cfg doctor_ids ;;;
    generate_doctor_practices env cfg doctor_ids practice_ids ;;;
    conn_close ;;;
    ret Completed.

(* ================================================================== *)
(** * Reasoning about runs *)

(** [wp m Q E w]: started in [w], [m] either returns [a] in a world with
    [Q a], or raises [e] in a world with [E e]. *)
Definition wp {A} (m : M A) (Q : A -> World -> Prop) (E : Exn -> World -> Prop)
    (w : World) : Prop :=
  match m w with
  | Ok a w' => Q a w'
  | Raise e w' => E e w'
  end.

Lemma wp_ret {A} (a : A) Q E w : Q a w -> wp (ret a) Q E w.
Proof. exact (fun H => H). Qed.

Lemma wp_raise {A} e (Q : A -> World -> Prop) E w : E e w -> wp (raise e) Q E w.
Proof. exact (fun H => H). Qed.

Lemma wp_bind {A B} (m : M A) (k : A -> M B) Q E w :
  wp m (fun a w' => wp (k a) Q E w') E w -> wp (bind m k) Q E w.
Proof.
  unfold wp, bind. destruct (m w); auto.
Qed.

Lemma wp_mono {A} (m : M A) (Q Q' : A -> World -> Prop) (E E' : Exn -> World -> Prop) w :
  wp m Q E w ->
  (forall a w', Q a w' -> Q' a w') ->
  (forall e w', E e w' -> E' e w') ->
  wp m Q' E' w.
Proof.
  unfold wp. destruct (m w); auto.
Qed.

Lemma wp_ok {A} (m : M A) Q E w a w' : wp m Q E w -> m w = Ok a w' -> Q a w'.
Proof. unfold wp. intros H Hm. rewrite Hm in H. exact H. Qed.

Lemma wp_raised {A} (m : M A) Q E w e w' : wp m Q E w -> m w = Raise e w' -> E e w'.
Proof. unfold wp. intros H Hm. rewrite Hm in H. exact H. Qed.

(** The loop rule: the invariant is indexed by the items already handled. *)
Lemma wp_for_each {A S} (body : A -> S -> M S)
    (I : list A -> S -> World -> Prop) (E : Exn -> World -> Prop) :
  forall (todo done : list A) (s : S) (w : World),
    I done s w ->
    (forall pre x post s w,
        done ++ todo = pre ++ x :: post ->
        I pre s w ->
        wp (body x s) (fun s' w' => I (pre ++ [x]) s' w') E w) ->
    wp (for_each todo body s) (fun s' w' => I (done ++ todo) s' w') E w.
Proof.
  induction todo as [|x todo IH]; intros done s w HI Hbody; simpl.
  - rewrite app_nil_r. exact HI.
  - apply wp_bind.
    eapply wp_mono; [apply (Hbody done x todo s w eq_refl HI) | | auto].
    intros s' w' HI'. simpl in HI'.
    replace (done ++ x :: todo) with ((done ++ [x]) ++ todo)
      by (rewrite <- app_assoc; reflexivity).
    apply IH; [exact HI' |].
    intros pre y post s0 w0 Heq. apply Hbody with (post := post).
    rewrite <- Heq, <- app_assoc. reflexivity.
Qed.

(** ** Steps that only draw values

    [gen_only m P]: [m] leaves the connection alone, returns values with
    [P], and never raises a database error. *)
Definition gen_only {A} (m : M A) (P : A -> Prop) : Prop :=
  forall w, match m w with
            | Ok a w' => conn w' = conn w /\ P a
            | Raise e w' => conn w' = conn w /\ e <> DbError
            end.

Lemma gen_ret {A} (a : A) (P : A -> Prop) : P a -> gen_only (ret a) P.
Proof. intros H w. simpl. auto. Qed.

Lemma gen_raise {A} e (P : A -> Prop) : e <> DbError -> gen_only (raise e) P.
Proof. intros H w. simpl. auto. Qed.

Lemma gen_bind {A B} (m : M A) (k : A -> M B) (P : A -> Prop) (Q : B -> Prop) :
  gen_only m P -> (forall a, P a -> gen_only (k a) Q) -> gen_only (bind m k) Q.
Proof.
  intros Hm Hk w. unfold bind. specialize (Hm w).
  destruct (m w) as [a w1|e w1].
  - destruct Hm as [Hc Hp]. specialize (Hk a Hp w1).
    destruct (k a w1); destruct Hk as [Hc' H']; split; auto; congruence.
  - exact Hm.
Qed.

Lemma gen_weaken {A} (m : M A) (P Q : A -> Prop) :
  gen_only m P -> (forall a, P a -> Q a) -> gen_only m Q.
Proof.
  intros Hm HPQ w. specialize (Hm w). destruct (m w); intuition.
Qed.

Lemma wp_gen {A} (m : M A) (P : A -> Prop) Q E w :
  gen_only m P ->
  (forall a w', conn w' = conn w -> P a -> Q a w') ->
  (forall e w', conn w' = conn w -> e <> DbError -> E e w') ->
  wp m Q E w.
Proof.
  intros Hm HQ HE. unfold wp. specialize (Hm w).
  destruct (m w); destruct Hm; auto.
Qed.

Lemma gen_draw : gen_only draw (fun _ => True).
Proof. intros w. unfold draw. destruct (rnd w); simpl; auto. Qed.

Lemma gen_fake_draw : gen_only fake_draw (fun _ => True).
Proof. intros w. unfold fake_draw. destruct (fk_num w); simpl; auto. Qed.

Lemma gen_fake_text : gen_only fake_text (fun _ => True).
Proof. intros w. unfold fake_text. destruct (fk_txt w); simpl; auto. Qed.

Lemma gen_randint a b : gen_only (randint a b) (fun n => (a <= n <= b)%Z).
Proof.
  unfold randint. destruct (Z.ltb_spec b a).
  - apply gen_raise. discriminate.
  - eapply gen_bind; [apply gen_draw |]. intros r _. apply gen_ret.
    pose proof (Z.mod_pos_bound (Z.of_nat r) (b - a + 1)). lia.
Qed.

Lemma gen_choice {A} (l : list A) : gen_only (choice l) (fun x => In x l).
Proof.
  unfold choice. eapply gen_bind; [apply gen_draw |]. intros r _.
  destruct (nth_error l (r mod List.length l)) eqn:Hn.
  - apply gen_ret. eapply nth_error_In; eauto.
  - apply gen_raise. discriminate.
Qed.

Lemma gen_random_below p : gen_only (random_below p) (fun _ => True).
Proof.
  unfold random_below. eapply gen_bind; [apply gen_draw |]. intros. now apply gen_ret.
Qed.

Lemma pick_weighted_In {A} (l : list (A * nat)) k x :
  pick_weighted l k = Some x -> In x (map fst l).
Proof.
  revert k. induction l as [|[y wt] l IH]; simpl; intros k H; [discriminate |].
  destruct (k <? wt).
  - inversion H. auto.
  - right. eauto.
Qed.

Lemma gen_choices1 {A} (l : list (A * nat)) :
  gen_only (choices1 l) (fun x => In x (map fst l)).
Proof.
  unfold choices1. eapply gen_bind; [apply gen_draw |]. intros r _.
  destruct (pick_weighted l _) eqn:Hp.
  - apply gen_ret. eapply pick_weighted_In; eauto.
  - apply gen_raise. discriminate.
Qed.

Lemma gen_date_between env a b :
  gen_only (date_between env a b)
    (fun d => (parse_date env a <= d <= parse_date env b)%Z).
Proof.
  unfold date_between. destruct (Z.ltb_spec (parse_date env b) (parse_date env a)).
  - apply gen_raise. discriminate.
  - eapply gen_bind; [apply gen_fake_draw |]. intros r _. apply gen_ret.
    pose proof (Z.mod_pos_bound (Z.of_nat r) (parse_date env b - parse_date env a + 1)).
    lia.
Qed.

(** ** [random.sample] *)

Lemma remove_nth_split {A} (l1 l2 : list A) (x : A) :
  remove_nth (List.length l1) (l1 ++ x :: l2) = l1 ++ l2.
Proof.
  unfold remove_nth. f_equal.
  - rewrite firstn_app, Nat.sub_diag, firstn_all. simpl. apply app_nil_r.
  - replace (S (List.length l1)) with (List.length (l1 ++ [x]))
      by (rewrite length_app; simpl; lia).
    replace (l1 ++ x :: l2) with ((l1 ++ [x]) ++ l2)
      by (rewrite <- app_assoc; reflexivity).
    rewrite skipn_app, Nat.sub_diag, skipn_all. reflexivity.
Qed.

Lemma gen_sample_from {A} (k : nat) :
  forall pop : list A,
    gen_only (sample_from pop k)
      (fun l => List.length l = k /\ incl l pop /\ (NoDup pop -> NoDup l)).
Proof.
  induction k as [|k IH]; intros pop; simpl.
  - apply gen_ret. repeat split; [intros x [] | constructor].
  - eapply gen_bind; [apply gen_draw |]. intros r _.
    destruct (nth_error pop (r mod List.length pop)) as [x|] eqn:Hn.
    + destruct (nth_error_split _ _ Hn) as (l1 & l2 & Hpop & Hlen).
      rewrite <- Hlen, Hpop, remove_nth_split.
      eapply gen_bind; [apply IH |].
      intros rest (Hl & Hin & Hnd). apply gen_ret. repeat split.
      * simpl. now rewrite Hl.
      * intros y [<- | Hy]; [apply in_elt |].
        apply Hin in Hy. apply in_app_or in Hy.
        apply in_or_app. destruct Hy; [left | right; right]; assumption.
      * intros Hnd'. constructor.
        -- intros Hx. apply (NoDup_remove_2 _ _ _ Hnd'). auto.
        -- apply Hnd. eapply NoDup_remove_1; eauto.
    + apply gen_raise. discriminate.
Qed.

Lemma gen_sample {A} (pop : list A) (k : Z) :
  gen_only (sample pop k)
    (fun l => Z.of_nat (List.length l) = k /\ incl l pop /\ (NoDup pop -> NoDup l)).
Proof.
  unfold sample.
  destruct ((k <? 0)%Z || (Z.of_nat (List.length pop) <? k)%Z) eqn:Hk.
  - apply gen_raise. discriminate.
  - apply orb_false_iff in Hk. destruct Hk as [Hk _].
    apply Z.ltb_ge in Hk.
    eapply gen_weaken; [apply gen_sample_from |].
    intros l (Hl & Hin & Hnd). repeat split; auto. lia.
Qed.

(** ** [numerify] and [lexify] *)

Lemma is_digit_digit_char r : is_digit (digit_char r) = true.
Proof.
  unfold is_digit, digit_char.
  pose proof (Nat.mod_upper_bound r 10 ltac:(lia)) as Hb.
  rewrite nat_ascii_embedding by lia.
  apply andb_true_iff. split; apply Nat.leb_le; lia.
Qed.

Lemma is_letter_letter_char r : is_letter (letter_char r) = true.
Proof.
  unfold is_letter, is_upper, is_lower, letter_char.
  pose proof (Nat.mod_upper_bound r 52 ltac:(lia)) as Hb.
  destruct (Nat.ltb_spec (r mod 52) 26).
  - rewrite nat_ascii_embedding by lia.
    apply orb_true_iff. right. apply andb_true_iff. split; apply Nat.leb_le; lia.
  - rewrite nat_ascii_embedding by lia.
    apply orb_true_iff. left. apply andb_true_iff. split; apply Nat.leb_le; lia.
Qed.

Lemma gen_numerify (text : string) :
  str_forallb (Ascii.eqb "#"%char) text = true ->
  gen_only (numerify text)
    (fun s => String.length s = String.length text /\ str_forallb is_digit s = true).
Proof.
  induction text as [|c text IH]; intros H;
    cbn [str_forallb] in H; cbn [numerify].
  - apply gen_ret. auto.
  - apply andb_true_iff in H. destruct H as [Hc Ht].
    rewrite Ascii.eqb_sym in Hc. rewrite Hc.
    eapply gen_bind; [apply gen_fake_draw |]. intros r _.
    eapply gen_bind; [apply IH, Ht |]. intros s [Hl Hd].
    apply gen_ret. cbn [String.length str_forallb].
    rewrite Hl, Hd, is_digit_digit_char. auto.
Qed.

Lemma gen_lexify (text : string) :
  str_forallb (Ascii.eqb "?"%char) text = true ->
  gen_only (lexify text)
    (fun s => String.length s = String.length text /\ str_forallb is_letter s = true).
Proof.
  induction text as [|c text IH]; intros H;
    cbn [str_forallb] in H; cbn [lexify].
  - apply gen_ret. auto.
  - apply andb_true_iff in H. destruct H as [Hc Ht].
    rewrite Ascii.eqb_sym in Hc. rewrite Hc.
    eapply gen_bind; [apply gen_fake_draw |]. intros r _.
    eapply gen_bind; [apply IH, Ht |]. intros s [Hl Hd].
    apply gen_ret. cbn [String.length str_forallb].
    rewrite Hl, Hd, is_letter_letter_char. auto.
Qed.

(** ** What one generated row looks like *)

(** State code, dash, six digits, dash, three letters. *)
Definition license_number_shape (state number : string) : Prop :=
  exists digits letters,
    number = (state ++ "-" ++ digits ++ "-" ++ letters)%string /\
    String.length digits = 6 /\ str_forallb is_digit digits = true /\
    String.length letters = 3 /\ str_forallb is_letter letters = true.

Definition license_ok (env : Env) (doctor_id : nat) (l : License) : Prop :=
  l_doctor_id l = doctor_id /\
  In (l_state l) STATES /\
  license_number_shape (l_state l) (license_number l) /\
  (today env + days_of env "-15y" <= issue_date l <= today env)%Z /\
  (issue_date l + 365 <= expiry_date l <= issue_date l + 3650)%Z /\
  In (license_type l) LICENSE_TYPES /\
  In (l_status l) LICENSE_STATUSES.

Definition association_ok (env : Env) (doctor_id i practice_id : nat)
    (a : Association) : Prop :=
  a_doctor_id a = doctor_id /\
  a_practice_id a = practice_id /\
  is_primary a = (i =? 0) /\
  (today env + days_of env "-10y" <= start_date a <= today env + days_of env "-1m")%Z /\
  (forall e, end_date a = Some e ->
             (start_date a <= e <= today env + days_of env "+2y")%Z) /\
  In (role a) ROLES /\
  (4 <= hours_per_week a <= 40)%Z.

Lemma gen_make_license env doctor_id :
  gen_only (make_license env doctor_id) (license_ok env doctor_id).
Proof.
  unfold make_license.
  eapply gen_bind; [apply gen_choice |]. intros state Hstate.
  eapply gen_bind; [apply gen_date_between |]. intros issue Hissue.
  eapply gen_bind; [apply gen_randint |]. intros days Hdays.
  eapply gen_bind; [apply gen_numerify; reflexivity |]. intros digits [Hd1 Hd2].
  eapply gen_bind; [apply gen_lexify; reflexivity |]. intros letters [Hl1 Hl2].
  eapply gen_bind; [apply gen_choice |]. intros ltype Htype.
  eapply gen_bind; [apply gen_choices1 |]. intros status Hstatus.
  apply gen_ret. unfold license_ok.
  cbn [l_doctor_id l_state license_number issue_date expiry_date license_type l_status].
  unfold parse_date in Hissue.
  change (String.eqb "-15y" "today") with false in Hissue.
  change (String.eqb "today" "today") with true in Hissue.
  cbv beta iota in Hissue.
  split; [reflexivity |]. split; [exact Hstate |].
  split; [exists digits, letters; auto |].
  split; [exact Hissue |]. split; [cbv beta in Hdays; lia |].
  split; [exact Htype | exact Hstatus].
Qed.

Lemma gen_make_association env doctor_id i practice_id :
  gen_only (make_association env doctor_id i practice_id)
    (association_ok env doctor_id i practice_id).
Proof.
  unfold make_association.
  eapply gen_bind; [apply gen_date_between |]. intros start Hstart.
  eapply gen_bind; [apply gen_random_below |]. intros open_ended _.
  eapply gen_bind with
    (P := fun f => forall e, f = Some e ->
                     (start <= e <= today env + days_of env "+2y")%Z).
  { destruct open_ended.
    - apply gen_ret. discriminate.
    - eapply gen_bind; [apply gen_date_between |]. intros d Hd.
      apply gen_ret. intros e He. inversion He. subst. exact Hd. }
  intros finish Hfinish.
  eapply gen_bind; [apply gen_choice |]. intros duty Hduty.
  eapply gen_bind; [apply gen_randint |]. intros hours Hhours.
  apply gen_ret. unfold association_ok.
  cbn [a_doctor_id a_practice_id is_primary start_date end_date role hours_per_week].
  split; [reflexivity |]. split; [reflexivity |]. split; [reflexivity |].
  split; [exact Hstart |]. split; [exact Hfinish |].
  split; [exact Hduty | exact Hhours].
Qed.

Lemma str_take_length n s : String.length (str_take n s) <= n.
Proof.
  revert s. induction n as [|n IH]; intros [|c s]; simpl; try lia.
  specialize (IH s). lia.
Qed.

(** The widths the script cuts practice fields to. *)
Definition practice_ok (p : Practice) : Prop :=
  String.length (zip_code p) <= 10 /\
  String.length (p_phone p) <= 20 /\
  String.length (p_email p) <= 255 /\
  (forall s, website p = Some s -> String.length s <= 255) /\
  In (p_state p) STATES.

Definition doctor_ok (d : Doctor) : Prop :=
  String.length (d_phone d) <= 20 /\ In (specialty d) SPECIALTIES.

Lemma gen_make_practice : gen_only make_practice practice_ok.
Proof.
  unfold make_practice.
  eapply gen_bind; [apply gen_fake_text |]. intros company _.
  eapply gen_bind; [apply gen_choice |]. intros suffix _.
  eapply gen_bind; [apply gen_fake_text |]. intros line1 _.
  eapply gen_bind; [apply gen_random_below |]. intros with_line2 _.
  eapply gen_bind with (P := fun _ => True).
  { destruct with_line2.
    - eapply gen_bind; [apply gen_fake_text |]. intros. now apply gen_ret.
    - now apply gen_ret. }
  intros line2 _.
  eapply gen_bind; [apply gen_fake_text |]. intros town _.
  eapply gen_bind; [apply gen_choice |]. intros state Hstate.
  eapply gen_bind; [apply gen_fake_text |]. intros zip _.
  eapply gen_bind; [apply gen_fake_text |]. intros phone _.
  eapply gen_bind; [apply gen_fake_text |]. intros email _.
  eapply gen_bind; [apply gen_random_below |]. intros with_website _.
  apply gen_ret. unfold practice_ok.
  cbn [zip_code p_phone p_email website p_state].
  split; [apply str_take_length |]. split; [apply str_take_length |].
  split; [apply str_take_length |]. split; [| exact Hstate].
  intros s Hs. destruct with_website; [| discriminate].
  match type of Hs with
  | Some ?t = _ => assert (Ht : t = s) by congruence
  end.
  rewrite <- Ht. apply str_take_length.
Qed.

Lemma gen_make_doctor env : gen_only (make_doctor env) doctor_ok.
Proof.
  unfold make_doctor.
  eapply gen_bind; [apply gen_fake_text |]. intros first _.
  eapply gen_bind; [apply gen_fake_text |]. intros last _.
  eapply gen_bind; [apply gen_choice |]. intros spec Hspec.
  eapply gen_bind; [apply gen_fake_text |]. intros email _.
  eapply gen_bind; [apply gen_fake_text |]. intros phone _.
  eapply gen_bind with (P := fun _ => True).
  { unfold date_of_birth. destruct (birth_window env 25 70) as [lo hi].
    eapply gen_bind; [apply gen_date_between |]. intros. now apply gen_ret. }
  intros dob _.
  apply gen_ret. split; [apply str_take_length | exact Hspec].
Qed.

(** ** Calls on the connection *)

Lemma wp_sink_call sc effect (Q : unit -> World -> Prop) E w :
  E DbError (set_conn w (call_failed (conn w) sc)) ->
  Q tt (set_conn w (effect (call_done (conn w) sc))) ->
  wp (sink_call sc effect) Q E w.
Proof.
  intros HE HQ. unfold wp, sink_call.
  destruct (hd false (faults (conn w))); assumption.
Qed.

Lemma wp_conn_state (Q : Conn -> World -> Prop) E w :
  Q (conn w) w -> wp conn_state Q E w.
Proof. exact (fun H => H). Qed.

Lemma wp_conn_close (Q : unit -> World -> Prop) E w :
  Q tt (set_conn w (mkConn (committed (conn w)) (working (conn w))
                      (next_practice_id (conn w)) (next_doctor_id (conn w))
                      (faults (conn w)) (log (conn w) ++ [(Close, true)]))) ->
  wp conn_close Q E w.
Proof. exact (fun H => H). Qed.

Lemma seq_split_at (n : nat) (pre post : list nat) (x : nat) :
  seq 0 n = pre ++ x :: post -> x = List.length pre /\ List.length pre < n.
Proof.
  intros H.
  assert (Hlen : List.length (seq 0 n) = List.length pre + S (List.length post)).
  { rewrite H, length_app. reflexivity. }
  rewrite length_seq in Hlen.
  assert (Hn : nth (List.length pre) (seq 0 n) 0 = x).
  { rewrite H, app_nth2, Nat.sub_diag by lia. reflexivity. }
  rewrite seq_nth in Hn by lia. split; lia.
Qed.

Lemma combine_app_eq {A B} (l1 l2 : list A) (m1 m2 : list B) :
  List.length l1 = List.length m1 ->
  combine (l1 ++ l2) (m1 ++ m2) = combine l1 m1 ++ combine l2 m2.
Proof.
  revert m1. induction l1 as [|a l1 IH]; intros [|b m1] H; simpl in *;
    try discriminate; [reflexivity |].
  f_equal. apply IH. lia.
Qed.

(** ** The practices stage *)

Definition practices_inv (cfg : Config) (c0 : Conn) (pre : list nat)
    (st : list nat * list Practice) (w : World) : Prop :=
  let '(ids, batch) := st in
  exists flushed,
    practices (working (conn w)) = practices (working c0) ++ combine ids flushed /\
    doctors (working (conn w)) = doctors (working c0) /\
    licenses (working (conn w)) = licenses (working c0) /\
    doctor_practices (working (conn w)) = doctor_practices (working c0) /\
    List.length flushed = List.length ids /\
    ids = seq (next_practice_id c0) (List.length ids) /\
    next_practice_id (conn w) = next_practice_id c0 + List.length ids /\
    next_doctor_id (conn w) = next_doctor_id c0 /\
    List.length ids + List.length batch = List.length pre /\
    Forall practice_ok (flushed ++ batch) /\
    (committed c0 = working c0 -> committed (conn w) = working (conn w)) /\
    (List.length pre = NUM_PRACTICES cfg ->
     batch = [] /\ (0 < NUM_PRACTICES cfg -> committed (conn w) = working (conn w))).

Lemma generate_practices_loop cfg w :
  wp (practices_loop cfg)
     (practices_inv cfg (conn w) (range (NUM_PRACTICES cfg)))
     (fun _ _ => True) w.
Proof.
  unfold practices_loop. cbv zeta.
  apply (wp_for_each _ (practices_inv cfg (conn w)) (fun _ _ => True)
           (range (NUM_PRACTICES cfg)) []).
  - exists []. simpl. rewrite !app_nil_r. repeat split; auto.
    all: intros; simpl in *; lia.
  - intros pre x post [ids batch] w1 Hsplit
      (flushed & Hp & Hd & Hl & Ha & Hlen & Hids & Hnp & Hnd & Hcount & Hok & Hcw & Hlast).
    simpl in Hsplit. apply seq_split_at in Hsplit. destruct Hsplit as [Hx Hlt].
    apply wp_bind.
    eapply wp_gen; [apply gen_make_practice | | trivial].
    intros row w2 Hc Hrow. cbv beta zeta.
    destruct ((practices_batch_size cfg <=? List.length (batch ++ [row]))
              || (Z.of_nat x =? Z.of_nat (NUM_PRACTICES cfg) - 1)%Z) eqn:Hflush.
    + apply wp_bind. unfold insert_practices.
      apply wp_bind, wp_conn_state, wp_bind, wp_sink_call; [trivial |].
      apply wp_ret, wp_bind. unfold conn_commit.
      apply wp_sink_call; [trivial |]. apply wp_ret.
      cbn [practices_inv conn set_conn call_done working committed practices doctors
             licenses doctor_practices next_practice_id next_doctor_id].
      rewrite Hc.
      exists (flushed ++ batch ++ [row]).
      rewrite !length_app, !length_seq, Hp, Hd, Hl, Ha, Hnp, Hnd.
      repeat split; auto.
      * rewrite <- app_assoc. f_equal.
        rewrite combine_app_eq by lia. reflexivity.
      * rewrite (seq_app (List.length ids) _ (next_practice_id (conn w))).
        f_equal. exact Hids.
      * lia.
      * simpl. lia.
      * rewrite app_nil_r, app_assoc. apply Forall_app. split; auto.
    + apply wp_ret. cbn [practices_inv]. rewrite Hc.
      exists flushed. rewrite !length_app.
      apply orb_false_iff in Hflush. destruct Hflush as [_ Hnot].
      apply Z.eqb_neq in Hnot.
      repeat split; auto; try (simpl in *; lia).
      rewrite app_assoc. apply Forall_app. split; auto.
Qed.

(** What the practices stage leaves behind when it returns [ids]. *)
Definition practices_loaded (cfg : Config) (c0 : Conn) (ids : list nat) (c : Conn)
  : Prop :=
  exists rows,
    List.length rows = NUM_PRACTICES cfg /\
    ids = seq (next_practice_id c0) (NUM_PRACTICES cfg) /\
    Forall practice_ok rows /\
    practices (working c) = practices (working c0) ++ combine ids rows /\
    doctors (working c) = doctors (working c0) /\
    licenses (working c) = licenses (working c0) /\
    doctor_practices (working c) = doctor_practices (working c0) /\
    next_practice_id c = next_practice_id c0 + NUM_PRACTICES cfg /\
    next_doctor_id c = next_doctor_id c0 /\
    (committed c0 = working c0 -> committed c = working c) /\
    (0 < NUM_PRACTICES cfg -> committed c = working c).

Lemma generate_practices_ok cfg w ids w' :
  generate_practices cfg w = Ok ids w' ->
  practices_loaded cfg (conn w) ids (conn w').
Proof.
  apply (wp_ok (generate_practices cfg)
           (fun ids w' => practices_loaded cfg (conn w) ids (conn w'))
           (fun _ _ => True)).
  unfold generate_practices. apply wp_bind.
  eapply wp_mono; [apply generate_practices_loop | | trivial].
  intros [ids1 batch] w1
    (flushed & Hp & Hd & Hl & Ha & Hlen & Hids & Hnp & Hnd & Hcount & Hok & Hcw & Hlast).
  apply wp_ret. unfold range in *. rewrite length_seq in *.
  destruct (Hlast eq_refl) as [-> Hcommitted].
  rewrite app_nil_r in Hok. simpl in Hcount. rewrite Nat.add_0_r in Hcount.
  exists flushed. rewrite <- Hcount at 2. rewrite Hcount in Hnp.
  repeat split; auto; lia.
Qed.

(** ** The doctors stage *)

Definition doctors_inv (cfg : Config) (c0 : Conn) (pre : list nat)
    (st : list nat * list Doctor) (w : World) : Prop :=
  let '(ids, batch) := st in
  exists flushed,
    doctors (working (conn w)) = doctors (working c0) ++ combine ids flushed /\
    practices (working (conn w)) = practices (working c0) /\
    licenses (working (conn w)) = licenses (working c0) /\
    doctor_practices (working (conn w)) = doctor_practices (working c0) /\
    List.length flushed = List.length ids /\
    ids = seq (next_doctor_id c0) (List.length ids) /\
    next_doctor_id (conn w) = next_doctor_id c0 + List.length ids /\
    next_practice_id (conn w) = next_practice_id c0 /\
    List.length ids + List.length batch = List.length pre /\
    Forall doctor_ok (flushed ++ batch) /\
    (committed c0 = working c0 -> committed (conn w) = working (conn w)) /\
    (List.length pre = NUM_DOCTORS cfg ->
     batch = [] /\ (0 < NUM_DOCTORS cfg -> committed (conn w) = working (conn w))).

Lemma generate_doctors_loop env cfg w :
  wp (doctors_loop env cfg)
     (doctors_inv cfg (conn w) (range (NUM_DOCTORS cfg)))
     (fun _ _ => True) w.
Proof.
  unfold doctors_loop. cbv zeta.
  apply (wp_for_each _ (doctors_inv cfg (conn w)) (fun _ _ => True)
           (range (NUM_DOCTORS cfg)) []).
  - exists []. simpl. rewrite !app_nil_r. repeat split; auto.
    all: intros; simpl in *; lia.
  - intros pre x post [ids batch] w1 Hsplit
      (flushed & Hp & Hd & Hl & Ha & Hlen & Hids & Hnp & Hnd & Hcount & Hok & Hcw & Hlast).
    simpl in Hsplit. apply seq_split_at in Hsplit. destruct Hsplit as [Hx Hlt].
    apply wp_bind.
    eapply wp_gen; [apply gen_make_doctor | | trivial].
    intros row w2 Hc Hrow. cbv beta zeta.
    destruct ((doctors_batch_size cfg <=? List.length (batch ++ [row]))
              || (Z.of_nat x =? Z.of_nat (NUM_DOCTORS cfg) - 1)%Z) eqn:Hflush.
    + apply wp_bind. unfold insert_doctors.
      apply wp_bind, wp_conn_state, wp_bind, wp_sink_call; [trivial |].
      apply wp_ret, wp_bind. unfold conn_commit.
      apply wp_sink_call; [trivial |]. apply wp_ret.
      cbn [doctors_inv conn set_conn call_done working committed doctors practices
             licenses doctor_practices next_doctor_id next_practice_id].
      rewrite Hc.
      exists (flushed ++ batch ++ [row]).
      rewrite !length_app, !length_seq, Hp, Hd, Hl, Ha, Hnp, Hnd.
      repeat split; auto.
      * rewrite <- app_assoc. f_equal.
        rewrite combine_app_eq by lia. reflexivity.
      * rewrite (seq_app (List.length ids) _ (next_doctor_id (conn w))).
        f_equal. exact Hids.
      * lia.
      * simpl. lia.
      * rewrite app_nil_r, app_assoc. apply Forall_app. split; auto.
    + apply wp_ret. cbn [doctors_inv]. rewrite Hc.
      exists flushed. rewrite !length_app.
      apply orb_false_iff in Hflush. destruct Hflush as [_ Hnot].
      apply Z.eqb_neq in Hnot.
      repeat split; auto; try (simpl in *; lia).
      rewrite app_assoc. apply Forall_app. split; auto.
Qed.

(** What the doctors stage leaves behind when it returns [ids]. *)
Definition doctors_loaded (cfg : Config) (c0 : Conn) (ids : list nat) (c : Conn)
  : Prop :=
  exists rows,
    List.length rows = NUM_DOCTORS cfg /\
    ids = seq (next_doctor_id c0) (NUM_DOCTORS cfg) /\
    Forall doctor_ok rows /\
    doctors (working c) = doctors (working c0) ++ combine ids rows /\
    practices (working c) = practices (working c0) /\
    licenses (working c) = licenses (working c0) /\
    doctor_practices (working c) = doctor_practices (working c0) /\
    next_doctor_id c = next_doctor_id c0 + NUM_DOCTORS cfg /\
    next_practice_id c = next_practice_id c0 /\
    (committed c0 = working c0 -> committed c = working c) /\
    (0 < NUM_DOCTORS cfg -> committed c = working c).

Lemma generate_doctors_ok env cfg w ids w' :
  generate_doctors env cfg w = Ok ids w' ->
  doctors_loaded cfg (conn w) ids (conn w').
Proof.
  apply (wp_ok (generate_doctors env cfg)
           (fun ids w' => doctors_loaded cfg (conn w) ids (conn w'))
           (fun _ _ => True)).
  unfold generate_doctors. apply wp_bind.
  eapply wp_mono; [apply generate_doctors_loop | | trivial].
  intros [ids1 batch] w1
    (flushed & Hp & Hd & Hl & Ha & Hlen & Hids & Hnp & Hnd & Hcount & Hok & Hcw & Hlast).
  apply wp_ret. unfold range in *. rewrite length_seq in *.
  destruct (Hlast eq_refl) as [-> Hcommitted].
  rewrite app_nil_r in Hok. simpl in Hcount. rewrite Nat.add_0_r in Hcount.
  exists flushed. rewrite <- Hcount at 2. rewrite Hcount in Hnp.
  repeat split; auto; lia.
Qed.

(** ** The licenses stage *)

(** The licenses of one doctor: between one and the maximum, each well
    formed. *)
Definition license_block (env : Env) (cfg : Config) (d : nat) (blk : list License)
  : Prop :=
  Forall (license_ok env d) blk /\
  (1 <= Z.of_nat (List.length blk) <= MAX_LICENSES_PER_DOCTOR cfg)%Z.

Definition some_license_ok (env : Env) (l : License) : Prop :=
  exists d, license_ok env d l.

(** What a stage that only writes licenses leaves untouched. *)
Definition licenses_frame (c0 c : Conn) : Prop :=
  practices (working c) = practices (working c0) /\
  doctors (working c) = doctors (working c0) /\
  doctor_practices (working c) = doctor_practices (working c0) /\
  next_practice_id c = next_practice_id c0 /\
  next_doctor_id c = next_doctor_id c0 /\
  (committed c0 = working c0 -> committed c = working c).

Definition licenses_inner (env : Env) (cfg : Config) (c0 : Conn) (pre : list nat)
    (d : nat) (pre' : list nat) (st : list License * nat) (w : World) : Prop :=
  let '(batch, count) := st in
  exists flushed blocks part,
    licenses (working (conn w)) = licenses (working c0) ++ flushed /\
    licenses_frame c0 (conn w) /\
    flushed ++ batch = List.concat blocks ++ part /\
    Forall2 (license_block env cfg) pre blocks /\
    Forall (license_ok env d) part /\
    List.length part = List.length pre' /\
    count = List.length (List.concat blocks ++ part).

Definition licenses_outer (env : Env) (cfg : Config) (c0 : Conn) (pre : list nat)
    (st : list License * nat) (w : World) : Prop :=
  let '(batch, count) := st in
  exists flushed blocks,
    licenses (working (conn w)) = licenses (working c0) ++ flushed /\
    licenses_frame c0 (conn w) /\
    flushed ++ batch = List.concat blocks /\
    Forall2 (license_block env cfg) pre blocks /\
    count = List.length (List.concat blocks).

(** What holds of the licenses table whenever the stage stops early. *)
Definition licenses_partial (env : Env) (c0 : Conn) (w : World) : Prop :=
  exists flushed,
    licenses (working (conn w)) = licenses (working c0) ++ flushed /\
    Forall (some_license_ok env) flushed.

Lemma license_blocks_ok env cfg ds blocks :
  Forall2 (license_block env cfg) ds blocks ->
  Forall (some_license_ok env) (List.concat blocks).
Proof.
  induction 1 as [|d blk ds blocks [Hblk _] _ IH]; simpl; [constructor |].
  apply Forall_app. split; [| exact IH].
  eapply Forall_impl; [| exact Hblk]. intros l Hl. now exists d.
Qed.

Lemma licenses_inner_partial env cfg c0 pre d pre' batch count w w' :
  licenses_inner env cfg c0 pre d pre' (batch, count) w ->
  conn w' = conn w ->
  licenses_partial env c0 w'.
Proof.
  intros (flushed & blocks & part & Hl & _ & Hsplit & Hblocks & Hpart & _) Hc.
  exists flushed. rewrite Hc. split; [exact Hl |].
  assert (Hall : Forall (some_license_ok env) (flushed ++ batch)).
  { rewrite Hsplit. apply Forall_app. split.
    - eapply license_blocks_ok; eauto.
    - eapply Forall_impl; [| exact Hpart]. intros l Hl'. now exists d. }
  apply Forall_app in Hall. tauto.
Qed.

Lemma generate_licenses_inner env cfg c0 pre d n st w :
  licenses_inner env cfg c0 pre d [] st w ->
  wp (doctor_licenses_loop env cfg d n st)
     (licenses_inner env cfg c0 pre d (range n))
     (fun _ => licenses_partial env c0) w.
Proof.
  unfold doctor_licenses_loop. cbv zeta.
  intros Hst.
  apply (wp_for_each _ (licenses_inner env cfg c0 pre d)
           (fun _ => licenses_partial env c0) (range n) []); [exact Hst |].
  clear st w Hst.
  intros pre' x post [batch count] w _ Hinv.
  apply wp_bind.
  eapply wp_gen; [apply gen_make_license | |].
  2: { intros e w' Hc _. eapply licenses_inner_partial; eauto. }
  intros row w1 Hc Hrow. cbv beta zeta.
  assert (Hnext : licenses_inner env cfg c0 pre d (pre' ++ [x])
                    (batch ++ [row], count + 1) w1).
  { destruct Hinv as (flushed & blocks & part & Hl & Hf & Hsplit & Hb & Hp & Hlen & Hcount).
    exists flushed, blocks, (part ++ [row]). rewrite Hc.
    split; [exact Hl |]. split; [exact Hf |].
    split; [rewrite !app_assoc; f_equal; exact Hsplit |].
    split; [exact Hb |].
    split; [apply Forall_app; split; auto |].
    split; [rewrite !length_app; simpl; lia |].
    rewrite Hcount, !length_app. simpl. lia. }
  clear Hinv.
  destruct (licenses_batch_size cfg <=? List.length (batch ++ [row])).
  - destruct Hnext as (flushed & blocks & part & Hl & Hf & Hsplit & Hb & Hp & Hlen & Hcount).
    assert (Hall : Forall (some_license_ok env) (flushed ++ batch ++ [row])).
    { rewrite Hsplit. apply Forall_app. split.
      - eapply license_blocks_ok; eauto.
      - eapply Forall_impl; [| exact Hp]. intros l Hl'. now exists d. }
    destruct Hf as (Hf1 & Hf2 & Hf3 & Hf4 & Hf5 & Hf6).
    apply wp_bind. unfold insert_licenses. apply wp_sink_call.
    { exists flushed. split; [exact Hl |]. apply Forall_app in Hall. tauto. }
    apply wp_bind. unfold conn_commit. apply wp_sink_call.
    { exists (flushed ++ batch ++ [row]). simpl. rewrite Hl, <- app_assoc. auto. }
    apply wp_ret.
    exists (flushed ++ batch ++ [row]), blocks, part. simpl.
    rewrite Hl, app_nil_r, <- app_assoc.
    split; [reflexivity |].
    split; [unfold licenses_frame; simpl; tauto |].
    split; [exact Hsplit |]. auto.
  - apply wp_ret. exact Hnext.
Qed.

Lemma licenses_outer_partial env cfg c0 pre batch count w w' :
  licenses_outer env cfg c0 pre (batch, count) w ->
  conn w' = conn w ->
  licenses_partial env c0 w'.
Proof.
  intros (flushed & blocks & Hl & _ & Hsplit & Hblocks & _) Hc.
  exists flushed. rewrite Hc. split; [exact Hl |].
  assert (Hall : Forall (some_license_ok env) (flushed ++ batch)).
  { rewrite Hsplit. eapply license_blocks_ok; eauto. }
  apply Forall_app in Hall. tauto.
Qed.

Lemma generate_licenses_outer env cfg doctor_ids w :
  wp (licenses_loop env cfg doctor_ids)
     (licenses_outer env cfg (conn w) doctor_ids)
     (fun _ => licenses_partial env (conn w)) w.
Proof.
  unfold licenses_loop. cbv zeta.
  apply (wp_for_each _ (licenses_outer env cfg (conn w))
           (fun _ => licenses_partial env (conn w)) doctor_ids []).
  - exists [], []. simpl. rewrite app_nil_r.
    unfold licenses_frame. auto 10.
  - intros pre d post [batch count] w1 _ Hinv.
    apply wp_bind.
    eapply wp_gen; [apply gen_randint | |].
    2: { intros e w' Hc _. eapply licenses_outer_partial; eauto. }
    intros num w2 Hc Hnum.
    eapply wp_mono;
      [apply (generate_licenses_inner env cfg (conn w) pre d) | | auto].
    + destruct Hinv as (flushed & blocks & Hl & Hf & Hsplit & Hb & Hcount).
      exists flushed, blocks, []. rewrite Hc, !app_nil_r. auto 10.
    + intros [batch' count'] w3
        (flushed & blocks & part & Hl & Hf & Hsplit & Hb & Hp & Hlen & Hcount).
      exists flushed, (blocks ++ [part]).
      rewrite concat_app. simpl. rewrite app_nil_r.
      split; [exact Hl |]. split; [exact Hf |]. split; [exact Hsplit |].
      split; [| exact Hcount].
      apply Forall2_app; [exact Hb |]. constructor; [| constructor].
      split; [exact Hp |].
      rewrite Hlen. unfold range. rewrite length_seq.
      cbv beta in Hnum. lia.
Qed.

(** What the licenses stage leaves behind when it returns: one block of
    licenses per doctor, in the order of the doctors. *)
Definition licenses_loaded (env : Env) (cfg : Config) (c0 : Conn)
    (doctor_ids : list nat) (c : Conn) : Prop :=
  exists blocks,
    Forall2 (license_block env cfg) doctor_ids blocks /\
    licenses (working c) = licenses (working c0) ++ List.concat blocks /\
    licenses_frame c0 c.

Lemma generate_licenses_spec env cfg doctor_ids w :
  wp (generate_licenses env cfg doctor_ids)
     (fun _ w' => licenses_loaded env cfg (conn w) doctor_ids (conn w'))
     (fun _ => licenses_partial env (conn w)) w.
Proof.
  unfold generate_licenses. apply wp_bind.
  eapply wp_mono; [apply generate_licenses_outer | | auto].
  intros [batch count] w1 (flushed & blocks & Hl & Hf & Hsplit & Hb & Hcount).
  assert (Hall : Forall (some_license_ok env) (flushed ++ batch)).
  { rewrite Hsplit. eapply license_blocks_ok; eauto. }
  destruct batch as [|row batch].
  - apply wp_ret. exists blocks. rewrite app_nil_r in Hsplit. subst flushed. auto.
  - destruct Hf as (Hf1 & Hf2 & Hf3 & Hf4 & Hf5 & Hf6).
    apply wp_bind. unfold insert_licenses. apply wp_sink_call.
    { exists flushed. split; [exact Hl |]. apply Forall_app in Hall. tauto. }
    unfold conn_commit. apply wp_sink_call.
    { exists (flushed ++ row :: batch). simpl. rewrite Hl, <- app_assoc. auto. }
    exists blocks. simpl.
    rewrite Hl, <- app_assoc, Hsplit.
    split; [exact Hb |]. split; [reflexivity |].
    unfold licenses_frame. simpl. tauto.
Qed.

(** ** The doctor-practices stage *)

Definition pair_ok (env : Env) (d : nat) (p : nat * nat) (a : Association) : Prop :=
  association_ok env d (fst p) (snd p) a.

(** The associations of one doctor: one row per sampled practice, in the
    order of the sample, the sample being what [random.sample] can return
    for a count between one and the maximum, cut to the practices there
    are. *)
Definition association_block (env : Env) (cfg : Config) (practice_ids : list nat)
    (d : nat) (blk : list Association) : Prop :=
  exists (num : Z) (sampled : list nat),
    (1 <= num <= MAX_PRACTICES_PER_DOCTOR cfg)%Z /\
    Z.of_nat (List.length sampled)
      = Z.min num (Z.of_nat (List.length practice_ids)) /\
    incl sampled practice_ids /\
    (NoDup practice_ids -> NoDup sampled) /\
    Forall2 (pair_ok env d) (enumerate sampled) blk.

Definition some_association_ok (env : Env) (a : Association) : Prop :=
  exists d i pid, association_ok env d i pid a.

(** What a stage that only writes associations leaves untouched. *)
Definition associations_frame (c0 c : Conn) : Prop :=
  practices (working c) = practices (working c0) /\
  doctors (working c) = doctors (working c0) /\
  licenses (working c) = licenses (working c0) /\
  next_practice_id c = next_practice_id c0 /\
  next_doctor_id c = next_doctor_id c0 /\
  (committed c0 = working c0 -> committed c = working c).

Definition associations_inner (env : Env) (cfg : Config) (practice_ids : list nat)
    (c0 : Conn) (pre : list nat) (d : nat) (pre' : list (nat * nat))
    (st : list Association * nat) (w : World) : Prop :=
  let '(batch, count) := st in
  exists flushed blocks part,
    doctor_practices (working (conn w)) = doctor_practices (working c0) ++ flushed /\
    associations_frame c0 (conn w) /\
    flushed ++ batch = List.concat blocks ++ part /\
    Forall2 (association_block env cfg practice_ids) pre blocks /\
    Forall2 (pair_ok env d) pre' part /\
    count = List.length (List.concat blocks ++ part).

Definition associations_outer (env : Env) (cfg : Config) (practice_ids : list nat)
    (c0 : Conn) (pre : list nat) (st : list Association * nat) (w : World) : Prop :=
  let '(batch, count) := st in
  exists flushed blocks,
    doctor_practices (working (conn w)) = doctor_practices (working c0) ++ flushed /\
    associations_frame c0 (conn w) /\
    flushed ++ batch = List.concat blocks /\
    Forall2 (association_block env cfg practice_ids) pre blocks /\
    count = List.length (List.concat blocks).

Definition associations_partial (env : Env) (c0 : Conn) (w : World) : Prop :=
  exists flushed,
    doctor_practices (working (conn w)) = doctor_practices (working c0) ++ flushed /\
    Forall (some_association_ok env) flushed.

Lemma pairs_ok_some env d ps part :
  Forall2 (pair_ok env d) ps part -> Forall (some_association_ok env) part.
Proof.
  induction 1 as [|p a ps part Hpa _ IH]; constructor; [| exact IH].
  exists d, (fst p), (snd p). exact Hpa.
Qed.

Lemma association_blocks_ok env cfg pids ds blocks :
  Forall2 (association_block env cfg pids) ds blocks ->
  Forall (some_association_ok env) (List.concat blocks).
Proof.
  induction 1 as [|d blk ds blocks (num & sampled & _ & _ & _ & _ & Hblk) _ IH];
    simpl; [constructor |].
  apply Forall_app. split; [| exact IH]. eapply pairs_ok_some; eauto.
Qed.

Lemma associations_inner_partial env cfg pids c0 pre d pre' batch count w w' :
  associations_inner env cfg pids c0 pre d pre' (batch, count) w ->
  conn w' = conn w ->
  associations_partial env c0 w'.
Proof.
  intros (flushed & blocks & part & Hl & _ & Hsplit & Hblocks & Hpart & _) Hc.
  exists flushed. rewrite Hc. split; [exact Hl |].
  assert (Hall : Forall (some_association_ok env) (flushed ++ batch)).
  { rewrite Hsplit. apply Forall_app. split.
    - eapply association_blocks_ok; eauto.
    - eapply pairs_ok_some; eauto. }
  apply Forall_app in Hall. tauto.
Qed.

Lemma associations_outer_partial env cfg pids c0 pre batch count w w' :
  associations_outer env cfg pids c0 pre (batch, count) w ->
  conn w' = conn w ->
  associations_partial env c0 w'.
Proof.
  intros (flushed & blocks & Hl & _ & Hsplit & Hblocks & _) Hc.
  exists flushed. rewrite Hc. split; [exact Hl |].
  assert (Hall : Forall (some_association_ok env) (flushed ++ batch)).
  { rewrite Hsplit. eapply association_blocks_ok; eauto. }
  apply Forall_app in Hall. tauto.
Qed.

Lemma generate_doctor_practices_inner env cfg pids c0 pre d sampled st w :
  associations_inner env cfg pids c0 pre d [] st w ->
  wp (doctor_associations_loop env cfg d sampled st)
     (associations_inner env cfg pids c0 pre d (enumerate sampled))
     (fun _ => associations_partial env c0) w.
Proof.
  unfold doctor_associations_loop. cbv zeta.
  intros Hst.
  apply (wp_for_each _ (associations_inner env cfg pids c0 pre d)
           (fun _ => associations_partial env c0) (enumerate sampled) []);
    [exact Hst |].
  clear st w Hst.
  intros pre' [i pid] post [batch count] w _ Hinv.
  apply wp_bind.
  eapply wp_gen; [apply gen_make_association | |].
  2: { intros e w' Hc _. eapply associations_inner_partial; eauto. }
  intros row w1 Hc Hrow. cbv beta zeta.
  assert (Hnext : associations_inner env cfg pids c0 pre d (pre' ++ [(i, pid)])
                    (batch ++ [row], count + 1) w1).
  { destruct Hinv as (flushed & blocks & part & Hl & Hf & Hsplit & Hb & Hp & Hcount).
    exists flushed, blocks, (part ++ [row]). rewrite Hc.
    split; [exact Hl |]. split; [exact Hf |].
    split; [rewrite !app_assoc; f_equal; exact Hsplit |].
    split; [exact Hb |].
    split; [apply Forall2_app; [exact Hp | constructor; [exact Hrow | constructor]] |].
    rewrite Hcount, !length_app. simpl. lia. }
  clear Hinv.
  destruct (doctor_practices_batch_size cfg <=? List.length (batch ++ [row])).
  - destruct Hnext as (flushed & blocks & part & Hl & Hf & Hsplit & Hb & Hp & Hcount).
    assert (Hall : Forall (some_association_ok env) (flushed ++ batch ++ [row])).
    { rewrite Hsplit. apply Forall_app. split.
      - eapply association_blocks_ok; eauto.
      - eapply pairs_ok_some; eauto. }
    destruct Hf as (Hf1 & Hf2 & Hf3 & Hf4 & Hf5 & Hf6).
    apply wp_bind. unfold insert_doctor_practices. apply wp_sink_call.
    { exists flushed. split; [exact Hl |]. apply Forall_app in Hall. tauto. }
    apply wp_bind. unfold conn_commit. apply wp_sink_call.
    { exists (flushed ++ batch ++ [row]). simpl. rewrite Hl, <- app_assoc. auto. }
    apply wp_ret.
    exists (flushed ++ batch ++ [row]), blocks, part. simpl.
    rewrite Hl, app_nil_r, <- app_assoc.
    split; [reflexivity |].
    split; [unfold associations_frame; simpl; tauto |].
    split; [exact Hsplit |]. auto.
  - apply wp_ret. exact Hnext.
Qed.

Lemma generate_doctor_practices_outer env cfg doctor_ids practice_ids w :
  wp (associations_loop env cfg doctor_ids practice_ids)
     (associations_outer env cfg practice_ids (conn w) doctor_ids)
     (fun _ => associations_partial env (conn w)) w.
Proof.
  unfold associations_loop. cbv zeta.
  apply (wp_for_each _ (associations_outer env cfg practice_ids (conn w))
           (fun _ => associations_partial env (conn w)) doctor_ids []).
  - exists [], []. simpl. rewrite app_nil_r.
    unfold associations_frame. auto 10.
  - intros pre d post [batch count] w1 _ Hinv.
    apply wp_bind.
    eapply wp_gen; [apply gen_randint | |].
    2: { intros e w' Hc _. eapply associations_outer_partial; eauto. }
    intros num w2 Hc Hnum. cbv beta in Hnum.
    apply wp_bind.
    eapply wp_gen; [apply gen_sample | |].
    2: { intros e w' Hc' _. eapply associations_outer_partial; eauto. congruence. }
    intros sampled w3 Hc' (Hlen & Hincl & Hnodup).
    eapply wp_mono;
      [apply (generate_doctor_practices_inner env cfg practice_ids (conn w) pre d)
      | | auto].
    + destruct Hinv as (flushed & blocks & Hl & Hf & Hsplit & Hb & Hcount).
      exists flushed, blocks, []. rewrite Hc', Hc, !app_nil_r. auto 10.
    + intros [batch' count'] w4
        (flushed & blocks & part & Hl & Hf & Hsplit & Hb & Hp & Hcount).
      exists flushed, (blocks ++ [part]).
      rewrite concat_app. simpl. rewrite app_nil_r.
      split; [exact Hl |]. split; [exact Hf |]. split; [exact Hsplit |].
      split; [| exact Hcount].
      apply Forall2_app; [exact Hb |]. constructor; [| constructor].
      exists num, sampled. auto.
Qed.

(** What the stage leaves behind when it returns: one block of
    associations per doctor, in the order of the doctors. *)
Definition associations_loaded (env : Env) (cfg : Config) (c0 : Conn)
    (doctor_ids practice_ids : list nat) (c : Conn) : Prop :=
  exists blocks,
    Forall2 (association_block env cfg practice_ids) doctor_ids blocks /\
    doctor_practices (working c) = doctor_practices (working c0) ++ List.concat blocks /\
    associations_frame c0 c.

Lemma generate_doctor_practices_spec env cfg doctor_ids practice_ids w :
  wp (generate_doctor_practices env cfg doctor_ids practice_ids)
     (fun _ w' =>
        associations_loaded env cfg (conn w) doctor_ids practice_ids (conn w'))
     (fun _ => associations_partial env (conn w)) w.
Proof.
  unfold generate_doctor_practices. apply wp_bind.
  eapply wp_mono; [apply generate_doctor_practices_outer | | auto].
  intros [batch count] w1 (flushed & blocks & Hl & Hf & Hsplit & Hb & Hcount).
  assert (Hall : Forall (some_association_ok env) (flushed ++ batch)).
  { rewrite Hsplit. eapply association_blocks_ok; eauto. }
  destruct batch as [|row batch].
  - apply wp_ret. exists blocks. rewrite app_nil_r in Hsplit. subst flushed. auto.
  - destruct Hf as (Hf1 & Hf2 & Hf3 & Hf4 & Hf5 & Hf6).
    apply wp_bind. unfold insert_doctor_practices. apply wp_sink_call.
    { exists flushed. split; [exact Hl |]. apply Forall_app in Hall. tauto. }
    unfold conn_commit. apply wp_sink_call.
    { exists (flushed ++ row :: batch). simpl. rewrite Hl, <- app_assoc. auto. }
    exists blocks. simpl.
    rewrite Hl, <- app_assoc, Hsplit.
    split; [exact Hb |]. split; [reflexivity |].
    unfold associations_frame. simpl. tauto.
Qed.

(** ** Rows of one doctor inside a table made of per-doctor blocks *)

Section Blocks.
Context {R : Type} (key : R -> nat) (P : nat -> list R -> Prop).
Hypothesis P_keys : forall d blk, P d blk -> Forall (fun r => key r = d) blk.

Definition rows_of (d : nat) (rows : list R) : list R :=
  filter (fun r => key r =? d) rows.

Lemma rows_of_same d blk :
  Forall (fun r => key r = d) blk -> rows_of d blk = blk.
Proof.
  induction 1 as [|r blk Hr _ IH]; simpl; [reflexivity |].
  rewrite (proj2 (Nat.eqb_eq _ _) Hr). f_equal. exact IH.
Qed.

Lemma rows_of_other d d' blk :
  d <> d' -> Forall (fun r => key r = d') blk -> rows_of d blk = [].
Proof.
  intros Hd. induction 1 as [|r blk Hr _ IH]; simpl; [reflexivity |].
  rewrite (proj2 (Nat.eqb_neq _ _)) by congruence. exact IH.
Qed.

Lemma rows_of_app d (l1 l2 : list R) :
  rows_of d (l1 ++ l2) = rows_of d l1 ++ rows_of d l2.
Proof. apply filter_app. Qed.

Lemma rows_of_absent d ds blocks :
  Forall2 P ds blocks -> ~ In d ds -> rows_of d (List.concat blocks) = [].
Proof.
  induction 1 as [|d' blk ds blocks Hblk _ IH]; simpl; intros Hd; [reflexivity |].
  rewrite rows_of_app, (rows_of_other d d' blk) by (intuition; eauto).
  apply IH. tauto.
Qed.

(** With pairwise different doctors, the rows of a doctor are exactly
    that doctor's block. *)
Lemma rows_of_block d ds blocks :
  Forall2 P ds blocks -> NoDup ds -> In d ds -> P d (rows_of d (List.concat blocks)).
Proof.
  induction 1 as [|d' blk ds blocks Hblk Hrest IH]; simpl; intros Hnd Hin;
    [contradiction |].
  inversion Hnd as [|? ? Hnotin Hnd']; subst.
  rewrite rows_of_app.
  destruct (Nat.eq_dec d' d) as [-> | Hne].
  - rewrite (rows_of_same d blk) by eauto.
    rewrite (rows_of_absent d ds blocks Hrest Hnotin), app_nil_r. exact Hblk.
  - rewrite (rows_of_other d d' blk) by eauto.
    simpl. apply IH; [exact Hnd' |]. destruct Hin; [contradiction | assumption].
Qed.

End Blocks.

Lemma license_block_keys env cfg d blk :
  license_block env cfg d blk -> Forall (fun l => l_doctor_id l = d) blk.
Proof.
  intros [H _]. eapply Forall_impl; [| exact H]. intros l Hl. apply Hl.
Qed.

Lemma pairs_ok_keys env d ps blk :
  Forall2 (pair_ok env d) ps blk -> Forall (fun a => a_doctor_id a = d) blk.
Proof.
  induction 1 as [|p a ps blk Hpa _ IH]; constructor; [apply Hpa | exact IH].
Qed.

Lemma association_block_keys env cfg pids d blk :
  association_block env cfg pids d blk -> Forall (fun a => a_doctor_id a = d) blk.
Proof.
  intros (num & sampled & _ & _ & _ & _ & H). eapply pairs_ok_keys; eauto.
Qed.

(** ** What a block of associations says about its rows *)

Lemma pairs_ok_from env d start (sampled : list nat) blk :
  Forall2 (pair_ok env d) (combine (seq start (List.length sampled)) sampled) blk ->
  map a_practice_id blk = sampled /\
  map is_primary blk = map (fun i => i =? 0) (seq start (List.length sampled)).
Proof.
  revert start blk. induction sampled as [|pid sampled IH]; simpl; intros start blk H.
  - inversion H. auto.
  - inversion H as [|p a ps blk' Hpa Hrest]; subst. simpl.
    destruct (IH _ _ Hrest) as [IH1 IH2]. rewrite IH1, IH2.
    destruct Hpa as (_ & Hpid & Hprim & _). simpl in Hpid, Hprim.
    rewrite Hpid, Hprim. auto.
Qed.

Lemma not_first_from start n :
  0 < start -> map (fun i => i =? 0) (seq start n) = repeat false n.
Proof.
  revert start. induction n as [|n IH]; simpl; intros start Hs; [reflexivity |].
  rewrite IH by lia. destruct start; [lia | reflexivity].
Qed.

Lemma association_block_rows env cfg pids d blk :
  association_block env cfg pids d blk ->
  (Z.of_nat (List.length blk)
   <= Z.min (MAX_PRACTICES_PER_DOCTOR cfg) (Z.of_nat (List.length pids)))%Z /\
  incl (map a_practice_id blk) pids /\
  (NoDup pids -> NoDup (map a_practice_id blk)) /\
  map is_primary blk = match blk with
                       | [] => []
                       | _ :: rest => true :: repeat false (List.length rest)
                       end.
Proof.
  intros (num & sampled & Hnum & Hlen & Hincl & Hnd & Hrows).
  unfold enumerate in Hrows.
  destruct (pairs_ok_from _ _ _ _ _ Hrows) as [Hpids Hprim].
  assert (Hl : List.length blk = List.length sampled).
  { rewrite <- Hpids, length_map. reflexivity. }
  rewrite Hpids. repeat split; auto; try lia.
  rewrite Hprim. destruct blk as [|a rest]; destruct sampled as [|p sampled];
    simpl in *; try discriminate; [reflexivity |].
  f_equal. rewrite not_first_from by lia. f_equal. lia.
Qed.

(* ================================================================== *)
(** * Small runs

    The worlds and settings the examples below are run on. *)

(** A calendar for the examples: two years are 730 days. *)
Definition example_env : Env :=
  mkEnv 739000
    (fun s => if String.eqb s "-15y" then -5475
              else if String.eqb s "-10y" then -3650
              else if String.eqb s "-1m" then -30
              else if String.eqb s "+2y" then 730
              else 0)%Z
    (fun lo hi => (739000 - 365 * (hi + 1), 739000 - 365 * lo)%Z).

Definition fresh_conn : Conn := mkConn no_rows no_rows 1 1 [] [].

Definition small_config : Config := mkConfig 3 2 3 3 2 2 2 2.

(** Tapes for a run with a few rows in every table. *)
Definition small_world : World :=
  mkWorld [1; 2; 3; 4; 5; 6; 7; 8; 9; 10; 11; 12; 900; 14; 15; 16; 17; 18; 19; 20]
    [5; 6; 7; 8; 9; 1; 2; 3] ["a"; "b"; "c"] fresh_conn.

Ltac all_different :=
  repeat (constructor; [simpl; intuition discriminate |]); constructor.

(* ================================================================== *)
(** * Licenses: dates and numbers *)

(** The world a run ends in, whether it returned or raised. *)
Definition final_world {A} (r : Result A) : World :=
  match r with
  | Ok _ w => w
  | Raise _ w => w
  end.

(** Every run of the licenses stage, finished or not, has only added well
    formed licenses to the table. *)
Lemma generate_licenses_rows env cfg doctor_ids w :
  exists added,
    licenses (working (conn (final_world (generate_licenses env cfg doctor_ids w))))
    = licenses (working (conn w)) ++ added /\
    Forall (some_license_ok env) added.
Proof.
  pose proof (generate_licenses_spec env cfg doctor_ids w) as H.
  unfold wp in H. destruct (generate_licenses env cfg doctor_ids w) as [[] w'|e w']; simpl.
  - destruct H as (blocks & Hb & Hl & _). exists (List.concat blocks).
    split; [exact Hl |]. eapply license_blocks_ok; eauto.
  - exact H.
Qed.

Lemma str_take_app (s t : string) :
  str_take (String.length s) (s ++ t)%string = s.
Proof. induction s as [|c s IH]; simpl; [destruct t; reflexivity | now rewrite IH]. Qed.

Lemma STATES_two_letters s : In s STATES -> String.length s = 2.
Proof.
  assert (H : forallb (fun s => String.length s =? 2) STATES = true) by reflexivity.
  rewrite forallb_forall in H. intros Hs. apply Nat.eqb_eq. auto.
Qed.

(** C6. For every license that a run of the licenses stage adds to the
    table, the expiry date is the issue date plus 365 to 3650 days, so it is
    strictly later than the issue date, and the issue date lies between the
    date Faker computes for ["-15y"] and today. *)
Theorem license_dates_ordered env cfg doctor_ids w :
  exists added,
    licenses (working (conn (final_world (generate_licenses env cfg doctor_ids w))))
    = licenses (working (conn w)) ++ added /\
    Forall (fun l =>
              (issue_date l < expiry_date l)%Z /\
              (issue_date l + 365 * 1 <= expiry_date l <= issue_date l + 365 * 10)%Z /\
              (today env + days_of env "-15y" <= issue_date l <= today env)%Z)
           added.
Proof.
  destruct (generate_licenses_rows env cfg doctor_ids w) as (added & Heq & Hok).
  exists added. split; [exact Heq |].
  eapply Forall_impl; [| exact Hok].
  intros l (d & _ & _ & _ & Hissue & Hexp & _). lia.
Qed.

(** C10. For every license that a run of the licenses stage adds to the
    table, the number is the row's own state code, a dash, six digits, a
    dash and three letters; the state code is one of the fifty two-letter
    codes, so the first two characters of the number are the state field. *)
Theorem license_number_matches_state env cfg doctor_ids w :
  exists added,
    licenses (working (conn (final_world (generate_licenses env cfg doctor_ids w))))
    = licenses (working (conn w)) ++ added /\
    Forall (fun l =>
              In (l_state l) STATES /\
              license_number_shape (l_state l) (license_number l) /\
              str_take 2 (license_number l) = l_state l)
           added.
Proof.
  destruct (generate_licenses_rows env cfg doctor_ids w) as (added & Heq & Hok).
  exists added. split; [exact Heq |].
  eapply Forall_impl; [| exact Hok].
  intros l (d & _ & Hstate & Hshape & _).
  split; [exact Hstate |]. split; [exact Hshape |].
  destruct Hshape as (digits & letters & Hnum & _).
  rewrite Hnum, <- (STATES_two_letters _ Hstate). apply str_take_app.
Qed.

(** The licenses of a small run over two doctors: doctor, number, state,
    issue date and expiry date of each. *)
Example small_run_licenses :
  map (fun l => (l_doctor_id l, license_number l, l_state l,
                 issue_date l, expiry_date l))
    (licenses (working (conn (final_world
       (generate_licenses example_env small_config [1; 2] small_world)))))
  = [(1, "AZ-678912-daa", "AZ", 733530%Z, 733898%Z);
     (1, "CT-000000-aaa", "CT", 733525%Z, 733897%Z);
     (2, "ID-000000-aaa", "ID", 733525%Z, 733902%Z);
     (2, "KS-000000-aaa", "KS", 733525%Z, 733906%Z)].
Proof. vm_compute. reflexivity. Qed.

(* ================================================================== *)
(** * Associations: dates, primary row, rows per doctor *)

(** Every run of the stage, finished or not, has only added well formed
    associations to the table. *)
Lemma generate_doctor_practices_rows env cfg doctor_ids practice_ids w :
  exists added,
    doctor_practices
      (working (conn (final_world
                        (generate_doctor_practices env cfg doctor_ids practice_ids w))))
    = doctor_practices (working (conn w)) ++ added /\
    Forall (some_association_ok env) added.
Proof.
  pose proof (generate_doctor_practices_spec env cfg doctor_ids practice_ids w) as H.
  unfold wp in H.
  destruct (generate_doctor_practices env cfg doctor_ids practice_ids w)
    as [[] w'|e w']; simpl.
  - destruct H as (blocks & Hb & Hl & _). exists (List.concat blocks).
    split; [exact Hl |]. eapply association_blocks_ok; eauto.
  - exact H.
Qed.

(** Two doctors, one practice.  For both doctors the generator draws an end
    date; the Faker draw for the first end date is 0, the one for the second
    is 4380. *)
Definition end_date_world : World :=
  mkWorld [0; 0; 900; 0; 0; 0; 0; 900; 0; 0] [0; 0; 0; 4380] [] fresh_conn.

(** C3, as stated, fails: in this run the first association ends on the day
    it starts, and the second ends 4380 days after it starts, twelve years
    later and not within two. *)
Lemma end_date_counterexample :
  let rows :=
    doctor_practices
      (working (conn (final_world
                        (generate_doctor_practices example_env small_config
                           [1; 2] [7] end_date_world)))) in
  ~ Forall (fun a => forall e, end_date a = Some e ->
                       (start_date a < e)%Z /\
                       (e <= start_date a + days_of example_env "+2y")%Z) rows /\
  (exists a, In a rows /\ end_date a = Some (start_date a)) /\
  (exists a, In a rows /\ end_date a = Some (start_date a + 4380)%Z).
Proof.
  vm_compute. split; [| split].
  - intros H. inversion H as [|a rows Ha _]; subst.
    destruct (Ha _ eq_refl) as [Hlt _]. vm_compute in Hlt. discriminate.
  - eexists. split; [left; reflexivity | reflexivity].
  - eexists. split; [right; left; reflexivity | reflexivity].
Qed.

(** C3, amended. For every association that a run of the stage adds to the
    table and whose end date is set, the end date is not before the start
    date (it can be the start date itself) and not after the date Faker
    computes for ["+2y"], two years after today. *)
Theorem end_date_not_before_start env cfg doctor_ids practice_ids w :
  exists added,
    doctor_practices
      (working (conn (final_world
                        (generate_doctor_practices env cfg doctor_ids practice_ids w))))
    = doctor_practices (working (conn w)) ++ added /\
    Forall (fun a => forall e, end_date a = Some e ->
                       (start_date a <= e <= today env + days_of env "+2y")%Z)
           added.
Proof.
  destruct (generate_doctor_practices_rows env cfg doctor_ids practice_ids w)
    as (added & Heq & Hok).
  exists added. split; [exact Heq |].
  eapply Forall_impl; [| exact Hok].
  intros a (d & i & pid & _ & _ & _ & _ & Hend & _). exact Hend.
Qed.

Lemma all_false_rows (rows : list Association) :
  map is_primary rows = repeat false (List.length rows) ->
  Forall (fun a => is_primary a = false) rows.
Proof.
  induction rows as [|a rows IH]; simpl; intros H; constructor.
  - congruence.
  - apply IH. congruence.
Qed.

Lemma no_primary_rows (rows : list Association) :
  Forall (fun a => is_primary a = false) rows -> filter is_primary rows = [].
Proof.
  induction 1 as [|a rows Ha _ IH]; simpl; [reflexivity |]. now rewrite Ha.
Qed.

(** C1. After a run of the stage over pairwise different doctors, the rows
    added for a doctor hold exactly one primary row when there is at least
    one row and none otherwise, and the primary row is the first of them. *)
Theorem one_primary_per_doctor env cfg doctor_ids practice_ids w w' :
  NoDup doctor_ids ->
  generate_doctor_practices env cfg doctor_ids practice_ids w = Ok tt w' ->
  exists added,
    doctor_practices (working (conn w'))
    = doctor_practices (working (conn w)) ++ added /\
    forall d, In d doctor_ids ->
      let mine := rows_of a_doctor_id d added in
      List.length (filter is_primary mine) = Nat.min 1 (List.length mine) /\
      (forall first rest, mine = first :: rest ->
         is_primary first = true /\ Forall (fun a => is_primary a = false) rest).
Proof.
  intros Hnd Hrun.
  pose proof (generate_doctor_practices_spec env cfg doctor_ids practice_ids w) as H.
  apply (wp_ok _ _ _ _ _ _ H) in Hrun. destruct Hrun as (blocks & Hb & Hl & _).
  exists (List.concat blocks). split; [exact Hl |].
  intros d Hd mine.
  pose proof (rows_of_block a_doctor_id (association_block env cfg practice_ids)
                (association_block_keys env cfg practice_ids) d doctor_ids blocks
                Hb Hnd Hd) as Hblk.
  fold mine in Hblk. apply association_block_rows in Hblk.
  destruct Hblk as (_ & _ & _ & Hprim).
  destruct mine as [|a rest]; simpl in *.
  - split; [reflexivity |]. intros first rest' Heq. discriminate.
  - assert (Ha : is_primary a = true) by congruence.
    assert (Hrest : Forall (fun a => is_primary a = false) rest)
      by (apply all_false_rows; congruence).
    rewrite Ha, (no_primary_rows rest Hrest). split; [reflexivity |].
    intros first rest' Heq. inversion Heq; subst. auto.
Qed.

Lemma one_primary_per_doctor_witness :
  exists w',
    generate_doctor_practices example_env small_config [1; 2] [7; 8; 9] small_world
    = Ok tt w' /\
    exists added,
      doctor_practices (working (conn w')) = [] ++ added /\
      forall d, In d [1; 2] ->
        let mine := rows_of a_doctor_id d added in
        List.length (filter is_primary mine) = Nat.min 1 (List.length mine) /\
        (forall first rest, mine = first :: rest ->
           is_primary first = true /\ Forall (fun a => is_primary a = false) rest).
Proof.
  eexists. split; [vm_compute; reflexivity |].
  apply (one_primary_per_doctor example_env small_config [1; 2] [7; 8; 9] small_world).
  - all_different.
  - vm_compute. reflexivity.
Defined.

(** The associations of a small run over two doctors and three practices:
    doctor, practice, primary flag, start date and end date of each. *)
Example small_run_associations :
  map (fun a => (a_doctor_id a, a_practice_id a, is_primary a,
                 start_date a, end_date a))
    (doctor_practices (working (conn (final_world
       (generate_doctor_practices example_env small_config [1; 2] [7; 8; 9]
          small_world)))))
  = [(1, 9, true, 735355%Z, None); (1, 8, false, 735356%Z, None);
     (2, 9, true, 735357%Z, Some 735365%Z); (2, 7, false, 735359%Z, None)].
Proof. vm_compute. reflexivity. Qed.

(** C5. After runs of the two dependent stages over pairwise different
    doctors and pairwise different practices, every doctor has between one
    and [MAX_LICENSES_PER_DOCTOR] added licenses, and at most
    [min(MAX_PRACTICES_PER_DOCTOR, len(practice_ids))] added associations,
    all of them with different practices taken from [practice_ids]. *)
Theorem rows_per_doctor env cfg doctor_ids practice_ids w1 w1' w2 w2' :
  NoDup doctor_ids ->
  NoDup practice_ids ->
  generate_licenses env cfg doctor_ids w1 = Ok tt w1' ->
  generate_doctor_practices env cfg doctor_ids practice_ids w2 = Ok tt w2' ->
  exists new_licenses new_associations,
    licenses (working (conn w1')) = licenses (working (conn w1)) ++ new_licenses /\
    doctor_practices (working (conn w2'))
    = doctor_practices (working (conn w2)) ++ new_associations /\
    forall d, In d doctor_ids ->
      let mine := rows_of a_doctor_id d new_associations in
      (1 <= Z.of_nat (List.length (rows_of l_doctor_id d new_licenses))
         <= MAX_LICENSES_PER_DOCTOR cfg)%Z /\
      (0 <= Z.of_nat (List.length mine)
         <= Z.min (MAX_PRACTICES_PER_DOCTOR cfg)
                  (Z.of_nat (List.length practice_ids)))%Z /\
      NoDup (map a_practice_id mine) /\
      incl (map a_practice_id mine) practice_ids.
Proof.
  intros Hnd Hnp Hrun1 Hrun2.
  pose proof (generate_licenses_spec env cfg doctor_ids w1) as H1.
  apply (wp_ok _ _ _ _ _ _ H1) in Hrun1. destruct Hrun1 as (lblocks & Hlb & Hl & _).
  pose proof (generate_doctor_practices_spec env cfg doctor_ids practice_ids w2) as H2.
  apply (wp_ok _ _ _ _ _ _ H2) in Hrun2. destruct Hrun2 as (ablocks & Hab & Ha & _).
  exists (List.concat lblocks), (List.concat ablocks).
  split; [exact Hl |]. split; [exact Ha |].
  intros d Hd mine.
  pose proof (rows_of_block l_doctor_id (license_block env cfg)
                (license_block_keys env cfg) d doctor_ids lblocks Hlb Hnd Hd)
    as [_ Hcount].
  pose proof (rows_of_block a_doctor_id (association_block env cfg practice_ids)
                (association_block_keys env cfg practice_ids) d doctor_ids ablocks
                Hab Hnd Hd) as Hblk.
  fold mine in Hblk. apply association_block_rows in Hblk.
  destruct Hblk as (Hlen & Hincl & Hnodup & _).
  split; [exact Hcount |]. split; [lia |]. split; [auto | exact Hincl].
Qed.

Lemma rows_per_doctor_witness :
  exists w1' w2',
    generate_licenses example_env small_config [1; 2] small_world = Ok tt w1' /\
    generate_doctor_practices example_env small_config [1; 2] [7; 8; 9] small_world
    = Ok tt w2' /\
    exists new_licenses new_associations,
      licenses (working (conn w1')) = [] ++ new_licenses /\
      doctor_practices (working (conn w2')) = [] ++ new_associations /\
      forall d, In d [1; 2] ->
        let mine := rows_of a_doctor_id d new_associations in
        (1 <= Z.of_nat (List.length (rows_of l_doctor_id d new_licenses)) <= 3)%Z /\
        (0 <= Z.of_nat (List.length mine) <= Z.min 3 (Z.of_nat 3))%Z /\
        NoDup (map a_practice_id mine) /\
        incl (map a_practice_id mine) [7; 8; 9].
Proof.
  do 2 eexists.
  split; [vm_compute; reflexivity |].
  split; [vm_compute; reflexivity |].
  apply (rows_per_doctor example_env small_config [1; 2] [7; 8; 9]
           small_world _ small_world _).
  - all_different.
  - all_different.
  - vm_compute. reflexivity.
  - vm_compute. reflexivity.
Defined.

(** ** No practices *)

Lemma randint_returns a b w :
  (a <= b)%Z ->
  exists n w', randint a b w = Ok n w' /\ conn w' = conn w /\ (a <= n <= b)%Z.
Proof.
  intros Hab. pose proof (gen_randint a b w) as H.
  unfold randint in *. destruct (Z.ltb_spec b a) as [Hlt | _]; [lia |].
  unfold bind, draw in *. destruct (rnd w); simpl in *; eauto.
Qed.

Lemma no_practices_loop env cfg doctor_ids :
  (1 <= MAX_PRACTICES_PER_DOCTOR cfg)%Z ->
  forall (st : list Association * nat) w,
  exists w',
    for_each doctor_ids
      (fun doctor_id st =>
         num_practices <- randint 1 (MAX_PRACTICES_PER_DOCTOR cfg) ;;
         doctor_practices <-
           sample (@nil nat) (Z.min num_practices (Z.of_nat (List.length (@nil nat)))) ;;
         doctor_associations_loop env cfg doctor_id doctor_practices st)
      st w = Ok st w' /\ conn w' = conn w.
Proof.
  intros Hmax. induction doctor_ids as [|d ds IH]; intros st w; cbn [for_each].
  - exists w. auto.
  - destruct (randint_returns 1 (MAX_PRACTICES_PER_DOCTOR cfg) w Hmax)
      as (n & w1 & Hrun & Hc & Hn).
    unfold bind at 1. unfold bind at 1. rewrite Hrun.
    unfold bind at 1. cbn [List.length]. rewrite Z.min_r by lia.
    change (sample (@nil nat) 0 w1) with (Ok (@nil nat) w1).
    unfold doctor_associations_loop.
    cbn [enumerate List.length seq combine for_each]. unfold ret at 1.
    destruct (IH st w1) as (w' & Hrest & Hc'). exists w'.
    split; [exact Hrest | congruence].
Qed.

(** C7. With no practice identifiers, and the maximum per doctor at least
    one as in the script, the stage returns without raising, whatever the
    doctors and the draws are; it makes no call on the connection, so it adds
    no association for any doctor. *)
Theorem no_practices_no_associations env cfg doctor_ids w :
  (1 <= MAX_PRACTICES_PER_DOCTOR cfg)%Z ->
  exists w',
    generate_doctor_practices env cfg doctor_ids [] w = Ok tt w' /\
    conn w' = conn w /\
    doctor_practices (working (conn w')) = doctor_practices (working (conn w)).
Proof.
  intros Hmax. unfold generate_doctor_practices, associations_loop.
  destruct (no_practices_loop env cfg doctor_ids Hmax ([], 0) w) as (w' & Hrun & Hc).
  exists w'. unfold bind at 1. rewrite Hrun.
  split; [reflexivity |]. split; [exact Hc | now rewrite Hc].
Qed.

Lemma no_practices_no_associations_witness :
  (1 <= MAX_PRACTICES_PER_DOCTOR script_config)%Z /\
  exists w',
    generate_doctor_practices example_env script_config [1; 2; 3] []
      (mkWorld [5; 7] [] [] fresh_conn) = Ok tt w' /\
    conn w' = fresh_conn /\
    doctor_practices (working (conn w')) = [].
Proof.
  split; [simpl; lia |].
  apply (no_practices_no_associations example_env script_config [1; 2; 3]
           (mkWorld [5; 7] [] [] fresh_conn)).
  simpl. lia.
Defined.

(* ================================================================== *)
(** * The confirmation gate *)

(** C9. When the answer, lower-cased, is not ["y"], [main] returns at once
    with the cancelled outcome: the only call on the connection is [close],
    no table is touched, and no value is drawn from either random source.
    (When the connection cannot be made in the first place, the script
    exits with status 1 before it asks.) *)
Theorem declined_confirmation env cfg reachable answer w :
  lower answer <> "y" ->
  main env cfg reachable answer w =
  if reachable
  then Ok Cancelled
         (mkWorld (rnd w) (fk_num w) (fk_txt w)
            (mkConn (committed (conn w)) (working (conn w))
               (next_practice_id (conn w)) (next_doctor_id (conn w))
               (faults (conn w)) (log (conn w) ++ [(Close, true)])))
  else Raise (SystemExit 1) w.
Proof.
  intros Hno. apply String.eqb_neq in Hno.
  unfold main. destruct reachable; simpl; [| reflexivity].
  unfold bind at 1. simpl. rewrite Hno. reflexivity.
Qed.

Lemma declined_confirmation_witness :
  lower "N" <> "y" /\
  main example_env script_config true "N" (mkWorld [1; 2] [3] ["a"] fresh_conn)
  = Ok Cancelled
      (mkWorld [1; 2] [3] ["a"]
         (mkConn no_rows no_rows 1 1 [] [(Close, true)])).
Proof.
  split; [vm_compute; discriminate |].
  apply (declined_confirmation example_env script_config true "N"
           (mkWorld [1; 2] [3] ["a"] fresh_conn)).
  vm_compute. discriminate.
Defined.

(* ================================================================== *)
(** * Batched insertion of practices and doctors *)



(* ================================================================== *)
(** * Field widths *)

(** What the script does cut: zip, phone, email and website of every
    practice, and the phone of every doctor. *)
Lemma widths_that_are_cut env cfg w1 practice_ids w1' w2 doctor_ids w2' :
  generate_practices cfg w1 = Ok practice_ids w1' ->
  generate_doctors env cfg w2 = Ok doctor_ids w2' ->
  (exists rows,
     practices (working (conn w1'))
     = practices (working (conn w1)) ++ combine practice_ids rows /\
     Forall practice_ok rows) /\
  (exists rows,
     doctors (working (conn w2'))
     = doctors (working (conn w2)) ++ combine doctor_ids rows /\
     Forall (fun d => String.length (d_phone d) <= 20) rows).
Proof.
  intros Hp Hd.
  apply generate_practices_ok in Hp. apply generate_doctors_ok in Hd.
  destruct Hp as (prows & _ & _ & Hpok & Hpt & _).
  destruct Hd as (drows & _ & _ & Hdok & Hdt & _).
  split; [exists prows; auto |].
  exists drows. split; [exact Hdt |].
  eapply Forall_impl; [| exact Hdok]. intros d Hdoc. apply Hdoc.
Qed.

Fixpoint str_repeat (c : ascii) (n : nat) : string :=
  match n with
  | 0 => EmptyString
  | S n' => String c (str_repeat c n')
  end.

(** An address of 256 characters. *)
Definition long_email : string := (str_repeat "a" 247 ++ "@mail.org")%string.

Definition one_each_config : Config := mkConfig 1 1 3 3 100 100 100 100.

(** Faker returns [long_email] from [fake.email()] for the doctor, and from
    [fake.company_email()] for the practice. *)
Definition long_email_doctor_world : World :=
  mkWorld [] [] ["Ann"; "Lee"; long_email; "555-0100"] fresh_conn.

Definition long_email_practice_world : World :=
  mkWorld [] []
    ["Acme"; "1 Main St"; "Suite 2"; "Springfield"; "12345"; "555-0100"; long_email]
    fresh_conn.

(** C4 does not hold of the code: [generate_doctors] passes [fake.email()]
    on as it is, so a 256-character address reaches the doctors table at
    its full length, while [generate_practices] cuts the same address to 255
    characters. *)
Theorem doctor_email_is_not_cut :
  (exists d,
     map snd (doctors (committed (conn (final_world
                (generate_doctors example_env one_each_config
                   long_email_doctor_world))))) = [d] /\
     d_email d = long_email /\
     String.length (d_email d) = 256) /\
  (exists p,
     map snd (practices (committed (conn (final_world
                (generate_practices one_each_config
                   long_email_practice_world))))) = [p] /\
     p_email p = str_take 255 long_email /\
     String.length (p_email p) = 255).
Proof.
  split; eexists; (split; [vm_compute; reflexivity |]);
    split; vm_compute; reflexivity.
Qed.

(* ================================================================== *)
(** * The calls a run makes on the connection *)

(** The stage of [main] a statement belongs to. *)
Definition stage_of (sc : SinkCall) : option nat :=
  match sc with
  | Truncate => Some 0
  | InsertPractices _ => Some 1
  | InsertDoctors _ => Some 2
  | InsertLicenses _ => Some 3
  | InsertDoctorPractices _ => Some 4
  | Commit | Close => None
  end.

(** The statements come stage after stage, none of them before [from]. *)
Fixpoint in_stage_order (from : nat) (calls : list SinkCall) : bool :=
  match calls with
  | [] => true
  | sc :: rest =>
      match stage_of sc with
      | None => in_stage_order from rest
      | Some s => (from <=? s) && in_stage_order s rest
      end
  end.

(** What a call that returned does to the committed tables and to the
    tables of the open transaction. *)
Definition apply_call (sc : SinkCall) (t : Tables * Tables) : Tables * Tables :=
  let '(cm, wk) := t in
  match sc with
  | Truncate => (cm, no_rows)
  | InsertPractices rows =>
      (cm, mkTables (practices wk ++ rows) (doctors wk) (licenses wk)
             (doctor_practices wk))
  | InsertDoctors rows =>
      (cm, mkTables (practices wk) (doctors wk ++ rows) (licenses wk)
             (doctor_practices wk))
  | InsertLicenses rows =>
      (cm, mkTables (practices wk) (doctors wk) (licenses wk ++ rows)
             (doctor_practices wk))
  | InsertDoctorPractices rows =>
      (cm, mkTables (practices wk) (doctors wk) (licenses wk)
             (doctor_practices wk ++ rows))
  | Commit => (wk, wk)
  | Close => (cm, wk)
  end.

(** The tables after a sequence of logged calls; a call that raised leaves
    them as they were. *)
Fixpoint replay (evs : list (SinkCall * bool)) (t : Tables * Tables)
  : Tables * Tables :=
  match evs with
  | [] => t
  | (sc, returned) :: rest => replay rest (if returned then apply_call sc t else t)
  end.

Definition returned (ev : SinkCall * bool) : Prop := snd ev = true.

Definition stage_within (lo hi : nat) (sc : SinkCall) : Prop :=
  match stage_of sc with
  | None => True
  | Some s => lo <= s <= hi
  end.

(** While the run goes on: every call so far returned, the tables are what
    those calls made them, and the calls came in stage order, none past
    stage [k]. *)
Definition calls_so_far (c0 : Conn) (k : nat) (c : Conn) : Prop :=
  exists evs,
    log c = log c0 ++ evs /\
    Forall returned evs /\
    replay evs (committed c0, working c0) = (committed c, working c) /\
    Forall (fun ev => stage_within 0 k (fst ev)) evs /\
    in_stage_order 0 (map fst evs) = true.

(** After a call raised: it is the last call of the log, every call before
    it returned, and the tables are what those earlier calls made them. *)
Definition stopped_at_failure (c0 c : Conn) : Prop :=
  exists evs failed,
    log c = log c0 ++ evs ++ [(failed, false)] /\
    Forall returned evs /\
    replay evs (committed c0, working c0) = (committed c, working c) /\
    in_stage_order 0 (map fst evs ++ [failed]) = true.

Definition fatal (c0 : Conn) (e : Exn) (w : World) : Prop :=
  e = DbError -> stopped_at_failure c0 (conn w).

Lemma replay_app evs1 evs2 t :
  replay (evs1 ++ evs2) t = replay evs2 (replay evs1 t).
Proof.
  revert t. induction evs1 as [|[sc r] evs1 IH]; intros t; simpl; [reflexivity |].
  apply IH.
Qed.

Lemma in_stage_order_snoc k sc calls :
  forall from,
    in_stage_order from calls = true ->
    Forall (stage_within 0 k) calls ->
    from <= k ->
    (forall s, stage_of sc = Some s -> k <= s) ->
    in_stage_order from (calls ++ [sc]) = true.
Proof.
  induction calls as [|c calls IH]; simpl; intros from Hord Hall Hfrom Hsc.
  - destruct (stage_of sc) as [s|]; [| reflexivity].
    rewrite andb_true_r. apply Nat.leb_le. specialize (Hsc s eq_refl). lia.
  - inversion Hall as [|? ? Hc Hall']; subst. unfold stage_within in Hc.
    destruct (stage_of c) as [s|].
    + apply andb_true_iff in Hord. destruct Hord as [H1 H2].
      rewrite H1. simpl. apply IH; auto. lia.
    + apply IH; auto.
Qed.

Lemma calls_so_far_weaken c0 k k' c :
  calls_so_far c0 k c -> k <= k' -> calls_so_far c0 k' c.
Proof.
  intros (evs & Hlog & Hret & Hrep & Hup & Hord) Hk.
  exists evs. repeat split; auto.
  eapply Forall_impl; [| exact Hup]. intros ev. unfold stage_within.
  destruct (stage_of (fst ev)); [lia | trivial].
Qed.

Lemma calls_so_far_start c k : calls_so_far c k c.
Proof.
  exists []. rewrite app_nil_r. repeat split; auto.
Qed.

(** One call, made at stage [k] or later, on a connection whose calls so
    far were in order up to stage [k]. *)
Lemma sink_call_logged c0 k k' sc effect w :
  calls_so_far c0 k (conn w) ->
  k <= k' ->
  stage_within k k' sc ->
  (forall c, log (effect c) = log c /\
             (committed (effect c), working (effect c))
             = apply_call sc (committed c, working c)) ->
  wp (sink_call sc effect)
     (fun _ w' => calls_so_far c0 k' (conn w')) (fatal c0) w.
Proof.
  intros (evs & Hlog & Hret & Hrep & Hup & Hord) Hk Hsc Heff.
  assert (Hord' : in_stage_order 0 (map fst evs ++ [sc]) = true).
  { apply (in_stage_order_snoc k); auto; [| lia |].
    - apply Forall_map. exact Hup.
    - intros s Hs. unfold stage_within in Hsc. rewrite Hs in Hsc. lia. }
  apply wp_sink_call.
  - intros _. exists evs, sc. simpl. rewrite Hlog, <- app_assoc. auto.
  - destruct (Heff (call_done (conn w) sc)) as [Hl Ht].
    exists (evs ++ [(sc, true)]). simpl. rewrite Hl. simpl.
    rewrite Hlog, <- app_assoc, replay_app, Hrep, map_app. simpl.
    split; [reflexivity |].
    split; [apply Forall_app; split; [exact Hret | repeat constructor] |].
    split; [symmetry; exact Ht |].
    split; [| exact Hord'].
    apply Forall_app. split.
    + eapply Forall_impl; [| exact Hup]. intros ev. unfold stage_within.
      destruct (stage_of (fst ev)); [lia | trivial].
    + repeat constructor. simpl. unfold stage_within in *.
      destruct (stage_of sc); [lia | trivial].
Qed.

Lemma conn_commit_logged c0 k w :
  calls_so_far c0 k (conn w) ->
  wp conn_commit (fun _ w' => calls_so_far c0 k (conn w')) (fatal c0) w.
Proof.
  intros H.
  apply (sink_call_logged c0 k k);
    [exact H | lia | exact I | intros c; split; reflexivity].
Qed.

Lemma execute_truncate_logged c0 w :
  calls_so_far c0 0 (conn w) ->
  wp execute_truncate (fun _ w' => calls_so_far c0 0 (conn w')) (fatal c0) w.
Proof.
  intros H.
  apply (sink_call_logged c0 0 0);
    [exact H | lia | unfold stage_within; simpl; lia
    | intros c; split; reflexivity].
Qed.

Lemma insert_practices_logged c0 k batch w :
  calls_so_far c0 k (conn w) -> k <= 1 ->
  wp (insert_practices batch) (fun _ w' => calls_so_far c0 1 (conn w')) (fatal c0) w.
Proof.
  intros H Hk. unfold insert_practices.
  apply wp_bind, wp_conn_state, wp_bind.
  eapply wp_mono;
    [apply (sink_call_logged c0 k 1);
       [exact H | exact Hk | unfold stage_within; simpl; lia
       | intros c; split; reflexivity]
    | | auto].
  intros u w' H'. apply wp_ret. exact H'.
Qed.

Lemma insert_doctors_logged c0 k batch w :
  calls_so_far c0 k (conn w) -> k <= 2 ->
  wp (insert_doctors batch) (fun _ w' => calls_so_far c0 2 (conn w')) (fatal c0) w.
Proof.
  intros H Hk. unfold insert_doctors.
  apply wp_bind, wp_conn_state, wp_bind.
  eapply wp_mono;
    [apply (sink_call_logged c0 k 2);
       [exact H | exact Hk | unfold stage_within; simpl; lia
       | intros c; split; reflexivity]
    | | auto].
  intros u w' H'. apply wp_ret. exact H'.
Qed.

Lemma insert_licenses_logged c0 k batch w :
  calls_so_far c0 k (conn w) -> k <= 3 ->
  wp (insert_licenses batch) (fun _ w' => calls_so_far c0 3 (conn w')) (fatal c0) w.
Proof.
  intros H Hk.
  apply (sink_call_logged c0 k 3);
    [exact H | exact Hk | unfold stage_within; simpl; lia
    | intros c; split; reflexivity].
Qed.

Lemma insert_doctor_practices_logged c0 k batch w :
  calls_so_far c0 k (conn w) -> k <= 4 ->
  wp (insert_doctor_practices batch)
     (fun _ w' => calls_so_far c0 4 (conn w')) (fatal c0) w.
Proof.
  intros H Hk.
  apply (sink_call_logged c0 k 4);
    [exact H | exact Hk | unfold stage_within; simpl; lia
    | intros c; split; reflexivity].
Qed.

(** A step that only draws values keeps what is known of the calls. *)
Lemma gen_only_logged {A} (m : M A) (P : A -> Prop) c0 k w :
  gen_only m P ->
  calls_so_far c0 k (conn w) ->
  wp m (fun _ w' => calls_so_far c0 k (conn w')) (fatal c0) w.
Proof.
  intros Hm H. eapply wp_gen; [exact Hm | |].
  - intros a w' Hc _. now rewrite Hc.
  - intros e w' _ He Hdb. contradiction.
Qed.

Ltac flush_logged insert_lemma :=
  cbv beta in *; apply wp_bind;
  eapply wp_mono; [eapply insert_lemma; [eassumption | lia] | | auto];
  intros ? ? ?; cbv beta in *; apply wp_bind;
  eapply wp_mono; [eapply conn_commit_logged; eassumption | | auto];
  intros ? ? ?; apply wp_ret; cbv beta in *; assumption.

Lemma generate_practices_logged c0 k cfg w :
  calls_so_far c0 k (conn w) -> k <= 1 ->
  wp (generate_practices cfg) (fun _ w' => calls_so_far c0 1 (conn w')) (fatal c0) w.
Proof.
  intros H Hk. apply (calls_so_far_weaken _ _ 1) in H; [| exact Hk].
  unfold generate_practices, practices_loop. cbv zeta. apply wp_bind.
  eapply wp_mono;
    [apply (wp_for_each _ (fun _ _ w' => calls_so_far c0 1 (conn w')) (fatal c0)
              _ []); [exact H |]
    | | auto].
  - intros pre i post [ids batch] w1 _ Hinv.
    apply wp_bind.
    eapply wp_mono; [apply (gen_only_logged _ _ c0 1 _ gen_make_practice Hinv) | | auto].
    intros row w2 Hinv2. cbv beta in *.
    destruct (_ || _).
    + flush_logged insert_practices_logged.
    + apply wp_ret. exact Hinv2.
  - intros [ids batch] w1 Hinv. apply wp_ret. exact Hinv.
Qed.

Lemma generate_doctors_logged c0 k env cfg w :
  calls_so_far c0 k (conn w) -> k <= 2 ->
  wp (generate_doctors env cfg) (fun _ w' => calls_so_far c0 2 (conn w')) (fatal c0) w.
Proof.
  intros H Hk. apply (calls_so_far_weaken _ _ 2) in H; [| exact Hk].
  unfold generate_doctors, doctors_loop. cbv zeta. apply wp_bind.
  eapply wp_mono;
    [apply (wp_for_each _ (fun _ _ w' => calls_so_far c0 2 (conn w')) (fatal c0)
              _ []); [exact H |]
    | | auto].
  - intros pre i post [ids batch] w1 _ Hinv.
    apply wp_bind.
    eapply wp_mono;
      [apply (gen_only_logged _ _ c0 2 _ (gen_make_doctor env) Hinv) | | auto].
    intros row w2 Hinv2. cbv beta in *.
    destruct (_ || _).
    + flush_logged insert_doctors_logged.
    + apply wp_ret. exact Hinv2.
  - intros [ids batch] w1 Hinv. apply wp_ret. exact Hinv.
Qed.

Lemma generate_licenses_logged c0 k env cfg doctor_ids w :
  calls_so_far c0 k (conn w) -> k <= 3 ->
  wp (generate_licenses env cfg doctor_ids)
     (fun _ w' => calls_so_far c0 3 (conn w')) (fatal c0) w.
Proof.
  intros H Hk. apply (calls_so_far_weaken _ _ 3) in H; [| exact Hk].
  unfold generate_licenses, licenses_loop. apply wp_bind.
  eapply wp_mono;
    [apply (wp_for_each _ (fun _ _ w' => calls_so_far c0 3 (conn w')) (fatal c0)
              _ []); [exact H |]
    | | auto].
  - intros pre d post st w1 _ Hinv.
    apply wp_bind.
    eapply wp_mono;
      [apply (gen_only_logged _ _ c0 3 _ (gen_randint _ _) Hinv) | | auto].
    intros num w2 Hinv2. unfold doctor_licenses_loop. cbv beta zeta in *.
    eapply wp_mono;
      [apply (wp_for_each _ (fun _ _ w' => calls_so_far c0 3 (conn w')) (fatal c0)
                _ []); [exact Hinv2 |]
      | | auto].
    + intros pre' x post' [batch count] w3 _ Hinv3.
      apply wp_bind.
      eapply wp_mono;
        [apply (gen_only_logged _ _ c0 3 _ (gen_make_license env d) Hinv3) | | auto].
      intros row w4 Hinv4. cbv beta in *.
      destruct (_ <=? _).
      * flush_logged insert_licenses_logged.
      * apply wp_ret. exact Hinv4.
    + intros st' w3 Hinv3. exact Hinv3.
  - intros [batch count] w1 Hinv. destruct batch as [|row batch].
    + apply wp_ret. exact Hinv.
    + apply wp_bind.
      eapply wp_mono; [eapply insert_licenses_logged; [eassumption | lia] | | auto].
      intros ? ? ?. cbv beta in *. eapply conn_commit_logged. eassumption.
Qed.

Lemma generate_doctor_practices_logged c0 k env cfg doctor_ids practice_ids w :
  calls_so_far c0 k (conn w) -> k <= 4 ->
  wp (generate_doctor_practices env cfg doctor_ids practice_ids)
     (fun _ w' => calls_so_far c0 4 (conn w')) (fatal c0) w.
Proof.
  intros H Hk. apply (calls_so_far_weaken _ _ 4) in H; [| exact Hk].
  unfold generate_doctor_practices, associations_loop. apply wp_bind.
  eapply wp_mono;
    [apply (wp_for_each _ (fun _ _ w' => calls_so_far c0 4 (conn w')) (fatal c0)
              _ []); [exact H |]
    | | auto].
  - intros pre d post st w1 _ Hinv.
    apply wp_bind.
    eapply wp_mono;
      [apply (gen_only_logged _ _ c0 4 _ (gen_randint _ _) Hinv) | | auto].
    intros num w2 Hinv2. cbv beta in *. apply wp_bind.
    eapply wp_mono;
      [apply (gen_only_logged _ _ c0 4 _ (gen_sample _ _) Hinv2) | | auto].
    intros sampled w2' Hinv2'. unfold doctor_associations_loop. cbv beta zeta in *.
    eapply wp_mono;
      [apply (wp_for_each _ (fun _ _ w' => calls_so_far c0 4 (conn w')) (fatal c0)
                _ []); [exact Hinv2' |]
      | | auto].
    + intros pre' [i pid] post' [batch count] w3 _ Hinv3.
      apply wp_bind.
      eapply wp_mono;
        [apply (gen_only_logged _ _ c0 4 _ (gen_make_association env d i pid) Hinv3)
        | | auto].
      intros row w4 Hinv4. cbv beta in *.
      destruct (_ <=? _).
      * flush_logged insert_doctor_practices_logged.
      * apply wp_ret. exact Hinv4.
    + intros st' w3 Hinv3. exact Hinv3.
  - intros [batch count] w1 Hinv. destruct batch as [|row batch].
    + apply wp_ret. exact Hinv.
    + apply wp_bind.
      eapply wp_mono;
        [eapply insert_doctor_practices_logged; [eassumption | lia] | | auto].
      intros ? ? ?. cbv beta in *. eapply conn_commit_logged. eassumption.
Qed.

Lemma conn_close_logged c0 k w :
  calls_so_far c0 k (conn w) ->
  wp conn_close (fun _ w' => calls_so_far c0 k (conn w')) (fatal c0) w.
Proof.
  intros (evs & Hlog & Hret & Hrep & Hup & Hord).
  apply wp_conn_close. exists (evs ++ [(Close, true)]). simpl.
  rewrite Hlog, <- app_assoc, replay_app, Hrep, map_app. simpl.
  split; [reflexivity |].
  split; [apply Forall_app; split; [exact Hret | repeat constructor] |].
  split; [reflexivity |].
  split; [apply Forall_app; split; [exact Hup | repeat constructor] |].
  apply (in_stage_order_snoc k); auto; [| lia | discriminate].
  apply Forall_map. exact Hup.
Qed.

Lemma main_logged env cfg reachable answer w :
  wp (main env cfg reachable answer)
     (fun _ w' => calls_so_far (conn w) 4 (conn w')) (fatal (conn w)) w.
Proof.
  unfold main. apply wp_bind. unfold connect_to_db.
  destruct reachable; [apply wp_ret | apply wp_raise; discriminate].
  pose proof (calls_so_far_start (conn w) 0) as H0.
  destruct (negb _).
  - apply wp_bind.
    eapply wp_mono;
      [apply (conn_close_logged (conn w) 4), calls_so_far_start | | auto].
    intros u w1 H1. apply wp_ret. exact H1.
  - apply wp_bind. unfold clear_tables. apply wp_bind.
    eapply wp_mono; [apply execute_truncate_logged; exact H0 | | auto].
    intros u1 w1 H1. cbv beta in *.
    eapply wp_mono; [apply conn_commit_logged; exact H1 | | auto].
    intros u2 w2 H2. cbv beta in *. apply wp_bind.
    eapply wp_mono; [eapply generate_practices_logged; [exact H2 | lia] | | auto].
    intros practice_ids w3 H3. cbv beta in *. apply wp_bind.
    eapply wp_mono; [eapply generate_doctors_logged; [exact H3 | lia] | | auto].
    intros doctor_ids w4 H4. cbv beta in *. apply wp_bind.
    eapply wp_mono; [eapply generate_licenses_logged; [exact H4 | lia] | | auto].
    intros u5 w5 H5. cbv beta in *. apply wp_bind.
    eapply wp_mono;
      [eapply generate_doctor_practices_logged; [exact H5 | lia] | | auto].
    intros u6 w6 H6. cbv beta in *. apply wp_bind.
    eapply wp_mono; [apply conn_close_logged; exact H6 | | auto].
    intros u7 w7 H7. apply wp_ret. exact H7.
Qed.

Lemma in_stage_order_lower from calls sc rest s :
  in_stage_order from (calls ++ sc :: rest) = true ->
  stage_of sc = Some s -> from <= s.
Proof.
  revert from. induction calls as [|c calls IH]; simpl; intros from H Hs.
  - rewrite Hs in H. apply andb_true_iff in H. destruct H as [H _].
    now apply Nat.leb_le.
  - destruct (stage_of c) as [s'|].
    + apply andb_true_iff in H. destruct H as [H1 H2].
      apply Nat.leb_le in H1. specialize (IH _ H2 Hs). lia.
    + eauto.
Qed.

(** In an ordered sequence of calls, no call before a call of stage [s]
    belongs to a later stage. *)
Lemma in_stage_order_before from calls sc rest s :
  in_stage_order from (calls ++ sc :: rest) = true ->
  stage_of sc = Some s ->
  forall c s', In c calls -> stage_of c = Some s' -> s' <= s.
Proof.
  revert from. induction calls as [|c0 calls IH]; simpl; intros from H Hs c s' Hin Hc;
    [contradiction |].
  destruct Hin as [-> | Hin].
  - rewrite Hc in H. apply andb_true_iff in H. destruct H as [_ H].
    eapply in_stage_order_lower; eauto.
  - destruct (stage_of c0) as [s0|].
    + apply andb_true_iff in H. destruct H as [_ H]. eauto.
    + eauto.
Qed.

(** The plan of the example: the thirteenth call raises.  With batches of
    two, that call is the third insert of licenses. *)
Definition third_license_flush_fails : World :=
  mkWorld (rnd small_world) (fk_num small_world) (fk_txt small_world)
    (mkConn no_rows no_rows 1 1 (repeat false 12 ++ [true]) []).

(** The same run, looked at directly: the licenses of the first two flushes
    are committed, the third flush is the call that raised, and no
    association was generated or inserted. *)
Example third_license_flush_fails_run :
  let w' := final_world (main example_env small_config true "y"
                           third_license_flush_fails) in
  List.length (licenses (committed (conn w'))) = 4 /\
  doctor_practices (working (conn w')) = [] /\
  List.length (log (conn w')) = 13 /\
  (exists rows, last (log (conn w')) (Close, true) = (InsertLicenses rows, false)) /\
  map (fun ev => stage_of (fst ev)) (log (conn w'))
  = [Some 0; None; Some 1; None; Some 2; None; Some 2; None;
     Some 3; None; Some 3; None; Some 3].
Proof.
  vm_compute. repeat split. eexists. reflexivity.
Qed.

(* ================================================================== *)
(** * A completed run, end to end *)

Lemma bind_ok_inv {A B} (m : M A) (k : A -> M B) w b w' :
  bind m k w = Ok b w' -> exists a w1, m w = Ok a w1 /\ k a w1 = Ok b w'.
Proof.
  unfold bind. destruct (m w) as [a w1|e w1]; [eauto | discriminate].
Qed.

Lemma clear_tables_ok w w' :
  clear_tables w = Ok tt w' ->
  committed (conn w') = no_rows /\ working (conn w') = no_rows /\
  next_practice_id (conn w') = 1 /\ next_doctor_id (conn w') = 1.
Proof.
  unfold clear_tables, execute_truncate, conn_commit, bind, sink_call.
  destruct (hd false (faults (conn w))); [discriminate |]. simpl.
  destruct (hd false (tl (faults (conn w)))); [discriminate |].
  intros H. inversion H. simpl. auto.
Qed.

Lemma map_fst_combine_eq {A B} (l : list A) (m : list B) :
  List.length l = List.length m -> map fst (combine l m) = l.
Proof.
  revert m. induction l as [|a l IH]; intros [|b m] H; simpl in *;
    try discriminate; [reflexivity |].
  f_equal. apply IH. lia.
Qed.

(** When [main] completes, the committed tables hold practices numbered
    [1..NUM_PRACTICES], doctors numbered [1..NUM_DOCTORS], one block of
    licenses and one block of associations per doctor, and nothing else. *)
Lemma completed_run_tables env cfg reachable answer w w' :
  main env cfg reachable answer w = Ok Completed w' ->
  let t := committed (conn w') in
  t = working (conn w') /\
  map fst (practices t) = seq 1 (NUM_PRACTICES cfg) /\
  map fst (doctors t) = seq 1 (NUM_DOCTORS cfg) /\
  (exists blocks,
     Forall2 (license_block env cfg) (seq 1 (NUM_DOCTORS cfg)) blocks /\
     licenses t = List.concat blocks) /\
  (exists blocks,
     Forall2 (association_block env cfg (seq 1 (NUM_PRACTICES cfg)))
       (seq 1 (NUM_DOCTORS cfg)) blocks /\
     doctor_practices t = List.concat blocks).
Proof.
  unfold main. intros H.
  apply bind_ok_inv in H. destruct H as ([] & w0 & Hconn & H).
  destruct reachable; [| discriminate]. inversion Hconn; subst w0.
  destruct (negb (lower answer =? "y")%string).
  { apply bind_ok_inv in H. destruct H as (u & w1 & _ & H). discriminate. }
  apply bind_ok_inv in H. destruct H as ([] & w1 & Hclear & H).
  apply clear_tables_ok in Hclear. destruct Hclear as (Hc1 & Hw1 & Hnp1 & Hnd1).
  apply bind_ok_inv in H. destruct H as (practice_ids & w2 & Hp & H).
  apply generate_practices_ok in Hp.
  destruct Hp as (prows & Hpl & Hpi & _ & Hpt & Hpd & Hpli & Hpa & _ & Hpnd & Hpc & _).
  apply bind_ok_inv in H. destruct H as (doctor_ids & w3 & Hd & H).
  apply generate_doctors_ok in Hd.
  destruct Hd as (drows & Hdl & Hdi & _ & Hdt & Hdp & Hdli & Hda & _ & _ & Hdc & _).
  apply bind_ok_inv in H. destruct H as ([] & w4 & Hl & H).
  apply (wp_ok _ _ _ _ _ _ (generate_licenses_spec env cfg doctor_ids w3)) in Hl.
  destruct Hl as (lblocks & Hlb & Hlt & Hlp & Hld & Hla & _ & _ & Hlc).
  apply bind_ok_inv in H. destruct H as ([] & w5 & Ha & H).
  apply (wp_ok _ _ _ _ _ _
           (generate_doctor_practices_spec env cfg doctor_ids practice_ids w4)) in Ha.
  destruct Ha as (ablocks & Hab & Hat & Hap & Had & Hal & _ & _ & Hac).
  apply bind_ok_inv in H. destruct H as ([] & w6 & Hclose & H).
  inversion H; subst w'. inversion Hclose; subst w6. simpl.
  assert (Hcommitted : committed (conn w5) = working (conn w5)).
  { apply Hac, Hlc, Hdc, Hpc. congruence. }
  split; [exact Hcommitted |].
  rewrite Hcommitted, Hap, Had, Hal, Hat, Hlp, Hld, Hla, Hlt, Hdp, Hdli, Hda, Hdt,
    Hpt, Hpd, Hpli, Hpa, Hw1. simpl.
  rewrite Hpnd, Hnp1, Hnd1 in *. subst practice_ids doctor_ids.
  rewrite !map_fst_combine_eq by (rewrite length_seq; auto).
  split; [reflexivity |]. split; [reflexivity |].
  split; [exists lblocks; auto | exists ablocks; auto].
Qed.

(** The same, doctor by doctor: no assumption on the identifiers is left,
    the store numbers the rows itself. *)
Corollary main_completed_per_doctor env cfg reachable answer w w' :
  main env cfg reachable answer w = Ok Completed w' ->
  forall d, 1 <= d <= NUM_DOCTORS cfg ->
    let t := committed (conn w') in
    let mine := rows_of a_doctor_id d (doctor_practices t) in
    (1 <= Z.of_nat (List.length (rows_of l_doctor_id d (licenses t)))
       <= MAX_LICENSES_PER_DOCTOR cfg)%Z /\
    (Z.of_nat (List.length mine)
       <= Z.min (MAX_PRACTICES_PER_DOCTOR cfg) (Z.of_nat (NUM_PRACTICES cfg)))%Z /\
    NoDup (map a_practice_id mine) /\
    List.length (filter is_primary mine) = Nat.min 1 (List.length mine).
Proof.
  intros Hrun d Hd.
  destruct (completed_run_tables env cfg reachable answer w w' Hrun)
    as (_ & _ & _ & (lblocks & Hlb & Hl) & (ablocks & Hab & Ha)).
  cbv zeta. rewrite Hl, Ha.
  assert (Hin : In d (seq 1 (NUM_DOCTORS cfg))) by (apply in_seq; lia).
  pose proof (rows_of_block l_doctor_id (license_block env cfg)
                (license_block_keys env cfg) d _ lblocks Hlb
                (seq_NoDup _ _) Hin) as [_ Hcount].
  pose proof (rows_of_block a_doctor_id
                (association_block env cfg (seq 1 (NUM_PRACTICES cfg)))
                (association_block_keys env cfg _) d _ ablocks Hab
                (seq_NoDup _ _) Hin) as Hblk.
  apply association_block_rows in Hblk.
  destruct Hblk as (Hlen & _ & Hnodup & Hprim).
  rewrite length_seq in Hlen.
  split; [exact Hcount |]. split; [exact Hlen |].
  split; [apply Hnodup, seq_NoDup |].
  destruct (rows_of a_doctor_id d (List.concat ablocks)) as [|a rest]; simpl in *;
    [reflexivity |].
  assert (Hfirst : is_primary a = true) by congruence.
  assert (Hrest : Forall (fun a => is_primary a = false) rest)
    by (apply all_false_rows; congruence).
  now rewrite Hfirst, (no_primary_rows rest Hrest).
Qed.

(* ================================================================== *)
(** * A run without failing calls completes *)

(** [returns m P]: [m] always returns, with a value in [P], and leaves the
    connection alone. *)
Definition returns {A} (m : M A) (P : A -> Prop) : Prop :=
  forall w, exists a w', m w = Ok a w' /\ conn w' = conn w /\ P a.

Lemma returns_ret {A} (a : A) (P : A -> Prop) : P a -> returns (ret a) P.
Proof. intros H w. exists a, w. auto. Qed.

Lemma returns_bind {A B} (m : M A) (k : A -> M B) (P : A -> Prop) (Q : B -> Prop) :
  returns m P -> (forall a, P a -> returns (k a) Q) -> returns (bind m k) Q.
Proof.
  intros Hm Hk w. destruct (Hm w) as (a & w1 & Hrun & Hc & Hp).
  destruct (Hk a Hp w1) as (b & w2 & Hrun' & Hc' & Hq).
  exists b, w2. unfold bind. rewrite Hrun. split; [exact Hrun' |].
  split; [congruence | exact Hq].
Qed.

Lemma returns_draw : returns draw (fun _ => True).
Proof. intros w. unfold draw. destruct (rnd w); eauto 6. Qed.

Lemma returns_fake_draw : returns fake_draw (fun _ => True).
Proof. intros w. unfold fake_draw. destruct (fk_num w); eauto 6. Qed.

Lemma returns_fake_text : returns fake_text (fun _ => True).
Proof. intros w. unfold fake_text. destruct (fk_txt w); eauto 6. Qed.

Lemma returns_randint a b :
  (a <= b)%Z -> returns (randint a b) (fun n => (a <= n <= b)%Z).
Proof.
  intros Hab. unfold randint. destruct (Z.ltb_spec b a); [lia |].
  eapply returns_bind; [apply returns_draw |]. intros r _. apply returns_ret.
  pose proof (Z.mod_pos_bound (Z.of_nat r) (b - a + 1)). lia.
Qed.

Lemma returns_choice {A} (l : list A) :
  l <> [] -> returns (choice l) (fun _ => True).
Proof.
  intros Hl. unfold choice.
  eapply returns_bind; [apply returns_draw |]. intros r _.
  destruct (nth_error l (r mod List.length l)) eqn:Hn; [now apply returns_ret |].
  apply nth_error_None in Hn.
  assert (0 < List.length l) by (destruct l; [contradiction | simpl; lia]).
  pose proof (Nat.mod_upper_bound r (List.length l)). lia.
Qed.

Lemma returns_random_below p : returns (random_below p) (fun _ => True).
Proof.
  unfold random_below. eapply returns_bind; [apply returns_draw |].
  intros. now apply returns_ret.
Qed.

Lemma pick_weighted_some {A} (l : list (A * nat)) k :
  k < list_sum (map snd l) -> exists x, pick_weighted l k = Some x.
Proof.
  revert k. induction l as [|[x wt] l IH]; simpl; intros k Hk; [lia |].
  destruct (Nat.ltb_spec k wt); [eauto |]. apply IH. lia.
Qed.

Lemma returns_choices1 {A} (l : list (A * nat)) :
  0 < list_sum (map snd l) -> returns (choices1 l) (fun _ => True).
Proof.
  intros Hl. unfold choices1.
  eapply returns_bind; [apply returns_draw |]. intros r _.
  destruct (pick_weighted_some l (r mod list_sum (map snd l))) as [x ->];
    [apply Nat.mod_upper_bound; lia | now apply returns_ret].
Qed.

Lemma returns_date_between env a b :
  (parse_date env a <= parse_date env b)%Z ->
  returns (date_between env a b)
    (fun d => (parse_date env a <= d <= parse_date env b)%Z).
Proof.
  intros Hab. unfold date_between.
  destruct (Z.ltb_spec (parse_date env b) (parse_date env a)); [lia |].
  eapply returns_bind; [apply returns_fake_draw |]. intros r _. apply returns_ret.
  pose proof (Z.mod_pos_bound (Z.of_nat r) (parse_date env b - parse_date env a + 1)).
  lia.
Qed.

Lemma returns_sample_from {A} (k : nat) :
  forall pop : list A,
    k <= List.length pop -> returns (sample_from pop k) (fun _ => True).
Proof.
  induction k as [|k IH]; intros pop Hk; simpl; [now apply returns_ret |].
  eapply returns_bind; [apply returns_draw |]. intros r _.
  pose proof (Nat.mod_upper_bound r (List.length pop) ltac:(lia)) as Hj.
  destruct (nth_error pop (r mod List.length pop)) as [x|] eqn:Hn.
  - destruct (nth_error_split _ _ Hn) as (l1 & l2 & Hpop & Hlen).
    rewrite <- Hlen, Hpop, remove_nth_split.
    eapply returns_bind; [apply IH | intros; now apply returns_ret].
    rewrite Hpop, length_app in Hk. rewrite length_app. simpl in Hk. lia.
  - apply nth_error_None in Hn. lia.
Qed.

Lemma returns_sample {A} (pop : list A) (k : Z) :
  (0 <= k <= Z.of_nat (List.length pop))%Z -> returns (sample pop k) (fun _ => True).
Proof.
  intros Hk. unfold sample.
  destruct (Z.ltb_spec k 0); [lia |].
  destruct (Z.ltb_spec (Z.of_nat (List.length pop)) k); [lia |].
  simpl. apply returns_sample_from. lia.
Qed.

Lemma returns_numerify text : returns (numerify text) (fun _ => True).
Proof.
  induction text as [|c text IH]; cbn [numerify]; [now apply returns_ret |].
  destruct (Ascii.eqb c "#").
  - eapply returns_bind; [apply returns_fake_draw |]. intros.
    eapply returns_bind; [apply IH |]. intros. now apply returns_ret.
  - eapply returns_bind; [apply IH |]. intros. now apply returns_ret.
Qed.

Lemma returns_lexify text : returns (lexify text) (fun _ => True).
Proof.
  induction text as [|c text IH]; cbn [lexify]; [now apply returns_ret |].
  destruct (Ascii.eqb c "?").
  - eapply returns_bind; [apply returns_fake_draw |]. intros.
    eapply returns_bind; [apply IH |]. intros. now apply returns_ret.
  - eapply returns_bind; [apply IH |]. intros. now apply returns_ret.
Qed.

(** A calendar on which every interval the script draws a date from is
    non-empty. *)
Definition calendar_ok (env : Env) : Prop :=
  (days_of env "-15y" <= 0)%Z /\
  (days_of env "-10y" <= days_of env "-1m")%Z /\
  (days_of env "-1m" <= days_of env "+2y")%Z /\
  (fst (birth_window env 25 70) <= snd (birth_window env 25 70))%Z.

Lemma returns_make_practice : returns make_practice (fun _ => True).
Proof.
  unfold make_practice.
  eapply returns_bind; [apply returns_fake_text |]. intros company _.
  eapply returns_bind; [apply returns_choice; discriminate |]. intros suffix _.
  eapply returns_bind; [apply returns_fake_text |]. intros line1 _.
  eapply returns_bind; [apply returns_random_below |]. intros with_line2 _.
  eapply returns_bind with (P := fun _ => True).
  { destruct with_line2; [| now apply returns_ret].
    eapply returns_bind; [apply returns_fake_text |]. intros. now apply returns_ret. }
  intros line2 _.
  eapply returns_bind; [apply returns_fake_text |]. intros town _.
  eapply returns_bind; [apply returns_choice; discriminate |]. intros state _.
  eapply returns_bind; [apply returns_fake_text |]. intros zip _.
  eapply returns_bind; [apply returns_fake_text |]. intros phone _.
  eapply returns_bind; [apply returns_fake_text |]. intros email _.
  eapply returns_bind; [apply returns_random_below |]. intros with_website _.
  now apply returns_ret.
Qed.

Lemma returns_make_doctor env :
  calendar_ok env -> returns (make_doctor env) (fun _ => True).
Proof.
  intros (_ & _ & _ & Hbirth). unfold make_doctor.
  eapply returns_bind; [apply returns_fake_text |]. intros first _.
  eapply returns_bind; [apply returns_fake_text |]. intros last _.
  eapply returns_bind; [apply returns_choice; discriminate |]. intros spec _.
  eapply returns_bind; [apply returns_fake_text |]. intros email _.
  eapply returns_bind; [apply returns_fake_text |]. intros phone _.
  eapply returns_bind with (P := fun _ => True).
  { unfold date_of_birth. destruct (birth_window env 25 70) as [lo hi].
    eapply returns_bind; [apply returns_date_between; exact Hbirth |].
    intros. now apply returns_ret. }
  intros dob _. now apply returns_ret.
Qed.

Lemma returns_make_license env doctor_id :
  calendar_ok env -> returns (make_license env doctor_id) (fun _ => True).
Proof.
  intros (Hissue & _). unfold make_license.
  eapply returns_bind; [apply returns_choice; discriminate |]. intros state _.
  eapply returns_bind.
  { apply returns_date_between. unfold parse_date.
    change (String.eqb "-15y" "today") with false.
    change (String.eqb "today" "today") with true. cbv beta iota. lia. }
  intros issue _.
  eapply returns_bind; [apply returns_randint; lia |]. intros days _.
  eapply returns_bind; [apply returns_numerify |]. intros digits _.
  eapply returns_bind; [apply returns_lexify |]. intros letters _.
  eapply returns_bind; [apply returns_choice; discriminate |]. intros ltype _.
  eapply returns_bind; [apply returns_choices1; simpl; lia |]. intros status _.
  now apply returns_ret.
Qed.

Lemma returns_make_association env doctor_id i practice_id :
  calendar_ok env ->
  returns (make_association env doctor_id i practice_id) (fun _ => True).
Proof.
  intros (_ & Hstart & Hend & _). unfold make_association.
  eapply returns_bind.
  { apply returns_date_between. unfold parse_date.
    change (String.eqb "-10y" "today") with false.
    change (String.eqb "-1m" "today") with false. cbv beta iota. lia. }
  intros start Hs. unfold parse_date in Hs.
  change (String.eqb "-10y" "today") with false in Hs.
  change (String.eqb "-1m" "today") with false in Hs. cbv beta iota in Hs.
  eapply returns_bind; [apply returns_random_below |]. intros open_ended _.
  eapply returns_bind with (P := fun _ => True).
  { destruct open_ended; [now apply returns_ret |].
    eapply returns_bind; [| intros; now apply returns_ret].
    apply returns_date_between. unfold parse_date.
    change (String.eqb "+2y" "today") with false. cbv beta iota. lia. }
  intros finish _.
  eapply returns_bind; [apply returns_choice; discriminate |]. intros duty _.
  eapply returns_bind; [apply returns_randint; lia |]. intros hours _.
  now apply returns_ret.
Qed.

















(** When [main] completes, nothing is left uncommitted, the practices
    and the doctors are numbered from 1 without gaps, and every license and
    every association refers to a doctor, and every association to a
    practice, that is in the committed tables. *)
Theorem completed_run_is_consistent env cfg reachable answer w w' :
  main env cfg reachable answer w = Ok Completed w' ->
  let t := committed (conn w') in
  working (conn w') = t /\
  map fst (practices t) = seq 1 (NUM_PRACTICES cfg) /\
  map fst (doctors t) = seq 1 (NUM_DOCTORS cfg) /\
  Forall (fun l => In (l_doctor_id l) (map fst (doctors t))) (licenses t) /\
  Forall (fun a => In (a_doctor_id a) (map fst (doctors t)) /\
                   In (a_practice_id a) (map fst (practices t)))
         (doctor_practices t).
Proof.
  intros Hrun.
  destruct (completed_run_tables env cfg reachable answer w w' Hrun)
    as (Hsame & Hp & Hd & (lblocks & Hlb & Hl) & (ablocks & Hab & Ha)).
  cbv zeta in *. rewrite Hp, Hd, Hl, Ha.
  split; [auto |]. split; [reflexivity |]. split; [reflexivity |]. split.
  - clear - Hlb. induction Hlb as [|d blk ds blocks Hblk _ IH]; simpl; [constructor |].
    apply Forall_app. split.
    + eapply Forall_impl; [| apply (license_block_keys _ _ _ _ Hblk)].
      intros l <-. now left.
    + eapply Forall_impl; [| exact IH]. intros l Hin. now right.
  - clear - Hab. induction Hab as [|d blk ds blocks Hblk _ IH]; simpl; [constructor |].
    apply Forall_app. split.
    + pose proof (association_block_keys _ _ _ _ _ Hblk) as Hkeys.
      destruct (association_block_rows _ _ _ _ _ Hblk) as (_ & Hincl & _).
      apply Forall_forall. intros a Ha.
      rewrite Forall_forall in Hkeys. split; [left; symmetry; auto |].
      apply Hincl, in_map, Ha.
    + eapply Forall_impl; [| exact IH]. intros a [H1 H2]. split; [now right | exact H2].
Qed.

Lemma completed_run_is_consistent_witness :
  exists w',
    main example_env small_config true "y" small_world = Ok Completed w' /\
    let t := committed (conn w') in
    working (conn w') = t /\
    map fst (practices t) = seq 1 2 /\
    map fst (doctors t) = seq 1 3 /\
    Forall (fun l => In (l_doctor_id l) (map fst (doctors t))) (licenses t) /\
    Forall (fun a => In (a_doctor_id a) (map fst (doctors t)) /\
                     In (a_practice_id a) (map fst (practices t)))
           (doctor_practices t).
Proof.
  eexists. split; [vm_compute; reflexivity |].
  apply (completed_run_is_consistent example_env small_config true "y" small_world).
  vm_compute. reflexivity.
Defined.

Lemma main_completed_per_doctor_witness :
  exists w',
    main example_env small_config true "y" small_world = Ok Completed w' /\
    1 <= 2 <= 3 /\
    let t := committed (conn w') in
    let mine := rows_of a_doctor_id 2 (doctor_practices t) in
    (1 <= Z.of_nat (List.length (rows_of l_doctor_id 2 (licenses t))) <= 3)%Z /\
    (Z.of_nat (List.length mine) <= Z.min 3 (Z.of_nat 2))%Z /\
    NoDup (map a_practice_id mine) /\
    List.length (filter is_primary mine) = Nat.min 1 (List.length mine).
Proof.
  eexists. split; [vm_compute; reflexivity |]. split; [lia |].
  apply (main_completed_per_doctor example_env small_config true "y" small_world);
    [vm_compute; reflexivity | simpl; lia].
Defined.


Lemma widths_that_are_cut_witness :
  exists practice_ids w1' doctor_ids w2',
    generate_practices small_config small_world = Ok practice_ids w1' /\
    generate_doctors example_env small_config small_world = Ok doctor_ids w2' /\
    (exists rows,
       practices (working (conn w1')) = [] ++ combine practice_ids rows /\
       Forall practice_ok rows) /\
    (exists rows,
       doctors (working (conn w2')) = [] ++ combine doctor_ids rows /\
       Forall (fun d => String.length (d_phone d) <= 20) rows).
Proof.
  do 4 eexists.
  split; [vm_compute; reflexivity |].
  split; [vm_compute; reflexivity |].
  apply (widths_that_are_cut example_env small_config small_world _ _ small_world _ _);
    vm_compute; reflexivity.
Defined.

(* ================================================================== *)
(** * Volumes, vocabularies and what a stage leaves alone *)

Lemma blocks_total {R D} (P : D -> list R -> Prop) (lo hi : Z) ds blocks :
  (forall d blk, P d blk -> (lo <= Z.of_nat (List.length blk) <= hi)%Z) ->
  Forall2 P ds blocks ->
  (lo * Z.of_nat (List.length ds)
   <= Z.of_nat (List.length (List.concat blocks))
   <= hi * Z.of_nat (List.length ds))%Z.
Proof.
  intros HP. induction 1 as [|d blk ds blocks Hblk _ IH]; simpl; [lia |].
  specialize (HP d blk Hblk). rewrite length_app. lia.
Qed.

Lemma association_block_at_least env cfg pids d blk :
  association_block env cfg pids d blk ->
  (Z.min 1 (Z.of_nat (List.length pids)) <= Z.of_nat (List.length blk)
   <= Z.min (MAX_PRACTICES_PER_DOCTOR cfg) (Z.of_nat (List.length pids)))%Z.
Proof.
  intros (num & sampled & Hnum & Hlen & _ & _ & Hrows).
  apply Forall2_length in Hrows. unfold enumerate in Hrows.
  rewrite length_combine, length_seq, Nat.min_id in Hrows. lia.
Qed.

(** When the two dependent stages return, the number of licenses added is
    between the number of doctors and [MAX_LICENSES_PER_DOCTOR] times that
    number, and the number of associations added is between
    [min(1, len(practice_ids))] and
    [min(MAX_PRACTICES_PER_DOCTOR, len(practice_ids))] times the number of
    doctors. *)
Theorem total_rows_added env cfg doctor_ids practice_ids w1 w1' w2 w2' :
  generate_licenses env cfg doctor_ids w1 = Ok tt w1' ->
  generate_doctor_practices env cfg doctor_ids practice_ids w2 = Ok tt w2' ->
  let n := Z.of_nat (List.length doctor_ids) in
  let p := Z.of_nat (List.length practice_ids) in
  exists new_licenses new_associations,
    licenses (working (conn w1')) = licenses (working (conn w1)) ++ new_licenses /\
    doctor_practices (working (conn w2'))
    = doctor_practices (working (conn w2)) ++ new_associations /\
    (1 * n <= Z.of_nat (List.length new_licenses)
       <= MAX_LICENSES_PER_DOCTOR cfg * n)%Z /\
    (Z.min 1 p * n <= Z.of_nat (List.length new_associations)
       <= Z.min (MAX_PRACTICES_PER_DOCTOR cfg) p * n)%Z.
Proof.
  intros Hrun1 Hrun2 n p.
  apply (wp_ok _ _ _ _ _ _ (generate_licenses_spec env cfg doctor_ids w1)) in Hrun1.
  destruct Hrun1 as (lblocks & Hlb & Hl & _).
  apply (wp_ok _ _ _ _ _ _
           (generate_doctor_practices_spec env cfg doctor_ids practice_ids w2)) in Hrun2.
  destruct Hrun2 as (ablocks & Hab & Ha & _).
  exists (List.concat lblocks), (List.concat ablocks).
  split; [exact Hl |]. split; [exact Ha |]. split.
  - apply (blocks_total (license_block env cfg)); [| exact Hlb].
    intros d blk [_ H]. exact H.
  - apply (blocks_total (association_block env cfg practice_ids)); [| exact Hab].
    intros d blk. apply association_block_at_least.
Qed.

Lemma total_rows_added_witness :
  exists w1' w2',
    generate_licenses example_env small_config [1; 2] small_world = Ok tt w1' /\
    generate_doctor_practices example_env small_config [1; 2] [7; 8; 9] small_world
    = Ok tt w2' /\
    exists new_licenses new_associations,
      licenses (working (conn w1')) = [] ++ new_licenses /\
      doctor_practices (working (conn w2')) = [] ++ new_associations /\
      (1 * 2 <= Z.of_nat (List.length new_licenses) <= 3 * 2)%Z /\
      (Z.min 1 3 * 2 <= Z.of_nat (List.length new_associations)
         <= Z.min 3 3 * 2)%Z.
Proof.
  do 2 eexists.
  split; [vm_compute; reflexivity |].
  split; [vm_compute; reflexivity |].
  apply (total_rows_added example_env small_config [1; 2] [7; 8; 9]
           small_world _ small_world _); vm_compute; reflexivity.
Defined.

(** Every license that a run of the licenses stage adds, whether the run
    returns or raises, has a type out of [LICENSE_TYPES], a status out of
    [LICENSE_STATUSES] and a state out of [STATES]. *)
Theorem license_vocabulary env cfg doctor_ids w :
  exists added,
    licenses (working (conn (final_world (generate_licenses env cfg doctor_ids w))))
    = licenses (working (conn w)) ++ added /\
    Forall (fun l =>
              In (license_type l) LICENSE_TYPES /\
              In (l_status l) LICENSE_STATUSES /\
              In (l_state l) STATES)
           added.
Proof.
  destruct (generate_licenses_rows env cfg doctor_ids w) as (added & Heq & Hok).
  exists added. split; [exact Heq |].
  eapply Forall_impl; [| exact Hok].
  intros l (d & _ & Hstate & _ & _ & _ & Htype & Hstatus). auto.
Qed.

(** Every association that a run of the stage adds, whether the run
    returns or raises, has a role out of [ROLES], between 4 and 40 hours per
    week, and a start date between the dates Faker computes for ["-10y"] and
    for ["-1m"]. *)
Theorem association_fields env cfg doctor_ids practice_ids w :
  exists added,
    doctor_practices
      (working (conn (final_world
                        (generate_doctor_practices env cfg doctor_ids practice_ids w))))
    = doctor_practices (working (conn w)) ++ added /\
    Forall (fun a =>
              In (role a) ROLES /\
              (4 <= hours_per_week a <= 40)%Z /\
              (today env + days_of env "-10y" <= start_date a
                 <= today env + days_of env "-1m")%Z)
           added.
Proof.
  destruct (generate_doctor_practices_rows env cfg doctor_ids practice_ids w)
    as (added & Heq & Hok).
  exists added. split; [exact Heq |].
  eapply Forall_impl; [| exact Hok].
  intros a (d & i & pid & _ & _ & _ & Hstart & _ & Hrole & Hhours). auto.
Qed.

(** A stage that returns has written to its own table only: the other
    three tables of the open transaction and the identity sequences it does
    not use are as they were. *)
Theorem stages_write_their_own_table env cfg doctor_ids practice_ids
    w1 ids1 w1' w2 ids2 w2' w3 w3' w4 w4' :
  generate_practices cfg w1 = Ok ids1 w1' ->
  generate_doctors env cfg w2 = Ok ids2 w2' ->
  generate_licenses env cfg doctor_ids w3 = Ok tt w3' ->
  generate_doctor_practices env cfg doctor_ids practice_ids w4 = Ok tt w4' ->
  (doctors (working (conn w1')) = doctors (working (conn w1)) /\
   licenses (working (conn w1')) = licenses (working (conn w1)) /\
   doctor_practices (working (conn w1')) = doctor_practices (working (conn w1)) /\
   next_doctor_id (conn w1') = next_doctor_id (conn w1)) /\
  (practices (working (conn w2')) = practices (working (conn w2)) /\
   licenses (working (conn w2')) = licenses (working (conn w2)) /\
   doctor_practices (working (conn w2')) = doctor_practices (working (conn w2)) /\
   next_practice_id (conn w2') = next_practice_id (conn w2)) /\
  (practices (working (conn w3')) = practices (working (conn w3)) /\
   doctors (working (conn w3')) = doctors (working (conn w3)) /\
   doctor_practices (working (conn w3')) = doctor_practices (working (conn w3)) /\
   next_practice_id (conn w3') = next_practice_id (conn w3) /\
   next_doctor_id (conn w3') = next_doctor_id (conn w3)) /\
  (practices (working (conn w4')) = practices (working (conn w4)) /\
   doctors (working (conn w4')) = doctors (working (conn w4)) /\
   licenses (working (conn w4')) = licenses (working (conn w4)) /\
   next_practice_id (conn w4') = next_practice_id (conn w4) /\
   next_doctor_id (conn w4') = next_doctor_id (conn w4)).
Proof.
  intros H1 H2 H3 H4.
  apply generate_practices_ok in H1. apply generate_doctors_ok in H2.
  apply (wp_ok _ _ _ _ _ _ (generate_licenses_spec env cfg doctor_ids w3)) in H3.
  apply (wp_ok _ _ _ _ _ _
           (generate_doctor_practices_spec env cfg doctor_ids practice_ids w4)) in H4.
  destruct H1 as (r1 & _ & _ & _ & _ & P1 & P2 & P3 & _ & P4 & _).
  destruct H2 as (r2 & _ & _ & _ & _ & D1 & D2 & D3 & _ & D4 & _).
  destruct H3 as (b3 & _ & _ & L1 & L2 & L3 & L4 & L5 & _).
  destruct H4 as (b4 & _ & _ & A1 & A2 & A3 & A4 & A5 & _).
  auto 20.
Qed.

Lemma stages_write_their_own_table_witness :
  exists ids1 w1' ids2 w2' w3' w4',
    generate_practices small_config small_world = Ok ids1 w1' /\
    generate_doctors example_env small_config small_world = Ok ids2 w2' /\
    generate_licenses example_env small_config [1; 2] small_world = Ok tt w3' /\
    generate_doctor_practices example_env small_config [1; 2] [7; 8; 9] small_world
    = Ok tt w4' /\
    (doctors (working (conn w1')) = [] /\
     licenses (working (conn w1')) = [] /\
     doctor_practices (working (conn w1')) = [] /\
     next_doctor_id (conn w1') = 1) /\
    (practices (working (conn w2')) = [] /\
     licenses (working (conn w2')) = [] /\
     doctor_practices (working (conn w2')) = [] /\
     next_practice_id (conn w2') = 1) /\
    (practices (working (conn w3')) = [] /\
     doctors (working (conn w3')) = [] /\
     doctor_practices (working (conn w3')) = [] /\
     next_practice_id (conn w3') = 1 /\
     next_doctor_id (conn w3') = 1) /\
    (practices (working (conn w4')) = [] /\
     doctors (working (conn w4')) = [] /\
     licenses (working (conn w4')) = [] /\
     next_practice_id (conn w4') = 1 /\
     next_doctor_id (conn w4') = 1).
Proof.
  do 6 eexists.
  split; [vm_compute; reflexivity |].
  split; [vm_compute; reflexivity |].
  split; [vm_compute; reflexivity |].
  split; [vm_compute; reflexivity |].
  eapply (stages_write_their_own_table example_env small_config [1; 2] [7; 8; 9]
           small_world _ _ small_world _ _ small_world _ small_world _);
    vm_compute; reflexivity.
Defined.

(** The counters the two dependent stages print count rows: when the
    loop of a stage returns, its counter is the number of rows it has
    inserted plus the number of rows still waiting in the batch. *)
Theorem counters_count_rows env cfg doctor_ids practice_ids
    w1 batch1 count1 w1' w2 batch2 count2 w2' :
  licenses_loop env cfg doctor_ids w1 = Ok (batch1, count1) w1' ->
  associations_loop env cfg doctor_ids practice_ids w2 = Ok (batch2, count2) w2' ->
  (exists inserted,
     licenses (working (conn w1')) = licenses (working (conn w1)) ++ inserted /\
     count1 = List.length inserted + List.length batch1) /\
  (exists inserted,
     doctor_practices (working (conn w2'))
     = doctor_practices (working (conn w2)) ++ inserted /\
     count2 = List.length inserted + List.length batch2).
Proof.
  intros H1 H2.
  apply (wp_ok _ _ _ _ _ _ (generate_licenses_outer env cfg doctor_ids w1)) in H1.
  apply (wp_ok _ _ _ _ _ _
           (generate_doctor_practices_outer env cfg doctor_ids practice_ids w2)) in H2.
  destruct H1 as (f1 & b1 & Hl & _ & Hs1 & _ & Hc1).
  destruct H2 as (f2 & b2 & Ha & _ & Hs2 & _ & Hc2).
  split.
  - exists f1. split; [exact Hl |]. rewrite Hc1, <- Hs1. apply length_app.
  - exists f2. split; [exact Ha |]. rewrite Hc2, <- Hs2. apply length_app.
Qed.

Lemma counters_count_rows_witness :
  exists batch1 count1 w1' batch2 count2 w2',
    licenses_loop example_env small_config [1; 2] small_world
    = Ok (batch1, count1) w1' /\
    associations_loop example_env small_config [1; 2] [7; 8; 9] small_world
    = Ok (batch2, count2) w2' /\
    (exists inserted,
       licenses (working (conn w1')) = [] ++ inserted /\
       count1 = List.length inserted + List.length batch1) /\
    (exists inserted,
       doctor_practices (working (conn w2')) = [] ++ inserted /\
       count2 = List.length inserted + List.length batch2).
Proof.
  do 6 eexists.
  split; [vm_compute; reflexivity |].
  split; [vm_compute; reflexivity |].
  apply (counters_count_rows example_env small_config [1; 2] [7; 8; 9]
           small_world _ _ _ small_world _ _ _); vm_compute; reflexivity.
Defined.

(* ================================================================== *)
(** * The errors a run can end with *)

(** [db_errors_only m]: when [m] raises, it is a database error. *)
Definition db_errors_only {A} (m : M A) : Prop :=
  forall w e w', m w = Raise e w' -> e = DbError.

Lemma db_errors_only_returns {A} (m : M A) (P : A -> Prop) :
  returns m P -> db_errors_only m.
Proof.
  intros Hm w e w' Hrun. destruct (Hm w) as (a & w1 & Hok & _). congruence.
Qed.

Lemma db_errors_only_ret {A} (a : A) : db_errors_only (ret a).
Proof. intros w e w' H. discriminate. Qed.

Lemma db_errors_only_bind {A B} (m : M A) (k : A -> M B) :
  db_errors_only m -> (forall a, db_errors_only (k a)) -> db_errors_only (bind m k).
Proof.
  intros Hm Hk w e w'. unfold bind. destruct (m w) as [a w1|e1 w1] eqn:Hrun.
  - apply Hk.
  - intros H. inversion H; subst. eapply Hm; eauto.
Qed.

Lemma db_errors_only_for_each {A S} (body : A -> S -> M S) (l : list A) :
  (forall x s, db_errors_only (body x s)) ->
  forall s, db_errors_only (for_each l body s).
Proof.
  intros Hbody. induction l as [|x l IH]; intros s; simpl.
  - apply db_errors_only_ret.
  - apply db_errors_only_bind; auto.
Qed.

Lemma db_errors_only_sink_call sc effect : db_errors_only (sink_call sc effect).
Proof.
  intros w e w'. unfold sink_call. destruct (hd false (faults (conn w))); congruence.
Qed.

Lemma db_errors_only_insert_practices batch : db_errors_only (insert_practices batch).
Proof.
  unfold insert_practices. apply db_errors_only_bind; [intros w e w' H; discriminate |].
  intros c. apply db_errors_only_bind; [apply db_errors_only_sink_call |].
  intros _. apply db_errors_only_ret.
Qed.

Lemma db_errors_only_insert_doctors batch : db_errors_only (insert_doctors batch).
Proof.
  unfold insert_doctors. apply db_errors_only_bind; [intros w e w' H; discriminate |].
  intros c. apply db_errors_only_bind; [apply db_errors_only_sink_call |].
  intros _. apply db_errors_only_ret.
Qed.

Lemma db_errors_only_generate_practices cfg : db_errors_only (generate_practices cfg).
Proof.
  unfold generate_practices, practices_loop. cbv zeta.
  apply db_errors_only_bind.
  - apply db_errors_only_for_each. intros i [ids batch].
    apply db_errors_only_bind;
      [apply (db_errors_only_returns _ _ returns_make_practice) |].
    intros row. cbv beta. destruct (_ || _); [| apply db_errors_only_ret].
    apply db_errors_only_bind; [apply db_errors_only_insert_practices |].
    intros new_ids.
    apply db_errors_only_bind; [apply db_errors_only_sink_call |]. intros _.
    apply db_errors_only_ret.
  - intros [ids batch]. apply db_errors_only_ret.
Qed.

Lemma db_errors_only_generate_doctors env cfg :
  calendar_ok env -> db_errors_only (generate_doctors env cfg).
Proof.
  intros Henv. unfold generate_doctors, doctors_loop. cbv zeta.
  apply db_errors_only_bind.
  - apply db_errors_only_for_each. intros i [ids batch].
    apply db_errors_only_bind;
      [apply (db_errors_only_returns _ _ (returns_make_doctor env Henv)) |].
    intros row. cbv beta. destruct (_ || _); [| apply db_errors_only_ret].
    apply db_errors_only_bind; [apply db_errors_only_insert_doctors |].
    intros new_ids.
    apply db_errors_only_bind; [apply db_errors_only_sink_call |]. intros _.
    apply db_errors_only_ret.
  - intros [ids batch]. apply db_errors_only_ret.
Qed.

Lemma db_errors_only_generate_licenses env cfg doctor_ids :
  calendar_ok env ->
  (1 <= MAX_LICENSES_PER_DOCTOR cfg)%Z ->
  db_errors_only (generate_licenses env cfg doctor_ids).
Proof.
  intros Henv Hmax. unfold generate_licenses, licenses_loop.
  apply db_errors_only_bind.
  - apply db_errors_only_for_each. intros d st.
    apply db_errors_only_bind;
      [apply (db_errors_only_returns _ _ (returns_randint _ _ Hmax)) |].
    intros num. unfold doctor_licenses_loop. cbv zeta.
    apply db_errors_only_for_each. intros x [batch count].
    apply db_errors_only_bind;
      [apply (db_errors_only_returns _ _ (returns_make_license env d Henv)) |].
    intros row. cbv beta. destruct (_ <=? _); [| apply db_errors_only_ret].
    apply db_errors_only_bind; [apply db_errors_only_sink_call |]. intros _.
    apply db_errors_only_bind; [apply db_errors_only_sink_call |]. intros _.
    apply db_errors_only_ret.
  - intros [[|row batch] count]; [apply db_errors_only_ret |].
    apply db_errors_only_bind;
      [apply db_errors_only_sink_call | intros _; apply db_errors_only_sink_call].
Qed.

Lemma db_errors_only_generate_doctor_practices env cfg doctor_ids practice_ids :
  calendar_ok env ->
  (1 <= MAX_PRACTICES_PER_DOCTOR cfg)%Z ->
  db_errors_only (generate_doctor_practices env cfg doctor_ids practice_ids).
Proof.
  intros Henv Hmax. unfold generate_doctor_practices, associations_loop.
  apply db_errors_only_bind.
  - apply db_errors_only_for_each. intros d st w e w' Hrun.
    destruct (returns_randint 1 _ Hmax w) as (num & w1 & Hnum & _ & Hbound).
    unfold bind at 1 in Hrun. rewrite Hnum in Hrun.
    revert Hrun. apply db_errors_only_bind.
    + apply (db_errors_only_returns _ (fun _ => True)), returns_sample. lia.
    + intros sampled. unfold doctor_associations_loop. cbv zeta.
      apply db_errors_only_for_each. intros [i pid] [batch count].
      apply db_errors_only_bind;
        [apply (db_errors_only_returns _ _
                  (returns_make_association env d i pid Henv)) |].
      intros row. cbv beta. destruct (_ <=? _); [| apply db_errors_only_ret].
      apply db_errors_only_bind; [apply db_errors_only_sink_call |]. intros _.
      apply db_errors_only_bind; [apply db_errors_only_sink_call |]. intros _.
      apply db_errors_only_ret.
  - intros [[|row batch] count]; [apply db_errors_only_ret |].
    apply db_errors_only_bind;
      [apply db_errors_only_sink_call | intros _; apply db_errors_only_sink_call].
Qed.

(** [main] here is given the line that [input()] read: a run in which
    [input()] itself fails (no line to read) is not described.  For the
    runs in which the line was read, or the connection was not made and the
    question never asked: on a calendar whose intervals are not empty and
    with maxima of at least one, [main] can end with an exception in two
    ways only: with the exit of status 1 when the connection cannot be
    made, in which case nothing at all has happened, or with a database
    error raised by a call on the connection.  No draw and no text of the
    generators makes it raise. *)
Theorem main_raises_only_these env cfg reachable answer w e w' :
  calendar_ok env ->
  (1 <= MAX_LICENSES_PER_DOCTOR cfg)%Z ->
  (1 <= MAX_PRACTICES_PER_DOCTOR cfg)%Z ->
  main env cfg reachable answer w = Raise e w' ->
  (reachable = false /\ e = SystemExit 1 /\ w' = w) \/
  (reachable = true /\ e = DbError).
Proof.
  intros Henv Hl Hp Hrun. destruct reachable.
  - right. split; [reflexivity |]. revert Hrun. unfold main.
    apply db_errors_only_bind; [apply db_errors_only_ret |]. intros _.
    destruct (negb _).
    + apply db_errors_only_bind; [intros w0 e0 w0' H; discriminate |].
      intros _. apply db_errors_only_ret.
    + apply db_errors_only_bind.
      { apply db_errors_only_bind;
          [apply db_errors_only_sink_call
          | intros _; apply db_errors_only_sink_call]. }
      intros _.
      apply db_errors_only_bind; [apply db_errors_only_generate_practices |].
      intros pids.
      apply db_errors_only_bind; [apply db_errors_only_generate_doctors, Henv |].
      intros dids.
      apply db_errors_only_bind;
        [apply db_errors_only_generate_licenses; assumption |]. intros _.
      apply db_errors_only_bind;
        [apply db_errors_only_generate_doctor_practices; assumption |]. intros _.
      apply db_errors_only_bind; [intros w0 e0 w0' H; discriminate |].
      intros _. apply db_errors_only_ret.
  - left. inversion Hrun. auto.
Qed.

Lemma main_raises_only_these_witness :
  exists e w',
    main example_env small_config true "y" third_license_flush_fails = Raise e w' /\
    ((true = false /\ e = SystemExit 1 /\ w' = third_license_flush_fails) \/
     (true = true /\ e = DbError)).
Proof.
  do 2 eexists. split; [vm_compute; reflexivity |].
  apply (main_raises_only_these example_env small_config true "y"
           third_license_flush_fails).
  - unfold calendar_ok. simpl. lia.
  - simpl. lia.
  - simpl. lia.
  - vm_compute. reflexivity.
Defined.

(* ================================================================== *)
(** * Clearing the tables *)

(** [clear_tables] is all or nothing: when it returns, the committed
    tables and the tables of the transaction are empty, whatever they held,
    and both identity sequences are back at 1; when it raises, it is a
    database error and the committed tables are as they were.  Neither
    random source is touched. *)
Theorem clear_tables_all_or_nothing w :
  match clear_tables w with
  | Ok _ w' =>
      committed (conn w') = no_rows /\ working (conn w') = no_rows /\
      next_practice_id (conn w') = 1 /\ next_doctor_id (conn w') = 1 /\
      rnd w' = rnd w /\ fk_num w' = fk_num w /\ fk_txt w' = fk_txt w
  | Raise e w' =>
      e = DbError /\ committed (conn w') = committed (conn w) /\
      rnd w' = rnd w /\ fk_num w' = fk_num w /\ fk_txt w' = fk_txt w
  end.
Proof.
  unfold clear_tables, execute_truncate, conn_commit, bind, sink_call.
  destruct (hd false (faults (conn w))); simpl; [auto 10 |].
  destruct (hd false (tl (faults (conn w)))); simpl; auto 10.
Qed.

(* ================================================================== *)
(** * Which answers confirm *)

Lemma lower_is_y answer : lower answer = "y" <-> answer = "y" \/ answer = "Y".
Proof.
  split.
  - destruct answer as [|c [|c' rest]]; simpl; try discriminate.
    intros H. injection H as Hc. unfold lower_char in Hc.
    destruct (is_upper c) eqn:Hup.
    + right. f_equal. unfold is_upper in Hup.
      apply andb_true_iff in Hup. destruct Hup as [H1 H2].
      apply Nat.leb_le in H1, H2.
      apply (f_equal nat_of_ascii) in Hc.
      rewrite nat_ascii_embedding in Hc by lia.
      change (nat_of_ascii "y") with 121 in Hc.
      assert (Hn : nat_of_ascii c = 89) by lia.
      apply (f_equal ascii_of_nat) in Hn. rewrite ascii_nat_embedding in Hn.
      exact Hn.
    + left. now f_equal.
  - intros [-> | ->]; reflexivity.
Qed.

(** With the connection made, [main] ends as cancelled exactly when the
    answer is neither ["y"] nor ["Y"]: every other line, ["yes"] and the
    empty line included, cancels, and those two never do. *)
Theorem cancelled_unless_y env cfg answer w :
  (exists w', main env cfg true answer w = Ok Cancelled w') <->
  (answer <> "y" /\ answer <> "Y").
Proof.
  split.
  - intros [w' Hrun]. 
    destruct (String.eqb (lower answer) "y") eqn:Hy.
    + exfalso. revert Hrun. unfold main, bind at 1. simpl. rewrite Hy. simpl.
      intros Hrun.
      repeat (apply bind_ok_inv in Hrun; destruct Hrun as (? & ? & _ & Hrun)).
      discriminate.
    + apply String.eqb_neq in Hy. rewrite lower_is_y in Hy. tauto.
  - intros [H1 H2].
    assert (Hy : String.eqb (lower answer) "y" = false).
    { apply String.eqb_neq. rewrite lower_is_y. tauto. }
    unfold main, bind at 1. simpl. rewrite Hy. simpl.
    eexists. reflexivity.
Qed.

(* ================================================================== *)
(** * Every write is committed on its own *)

(** A statement that writes, with a number of rows its stage allows: at
    least one row and at most the batch size of its table (one row when the
    batch size is 0). *)
Definition rows_in_limits (cfg : Config) (sc : SinkCall) : Prop :=
  match sc with
  | Truncate => True
  | InsertPractices rows =>
      1 <= List.length rows <= Nat.max 1 (practices_batch_size cfg)
  | InsertDoctors rows =>
      1 <= List.length rows <= Nat.max 1 (doctors_batch_size cfg)
  | InsertLicenses rows =>
      1 <= List.length rows <= Nat.max 1 (licenses_batch_size cfg)
  | InsertDoctorPractices rows =>
      1 <= List.length rows <= Nat.max 1 (doctor_practices_batch_size cfg)
  | Commit | Close => False
  end.

(** A log made of whole flushes: each write returned and is followed at
    once by a commit that returned.  The closing of the connection may come
    in between. *)
Inductive whole_flushes (cfg : Config) : list (SinkCall * bool) -> Prop :=
| wf_none : whole_flushes cfg []
| wf_flush evs sc :
    whole_flushes cfg evs -> rows_in_limits cfg sc ->
    whole_flushes cfg (evs ++ [(sc, true); (Commit, true)])
| wf_close evs :
    whole_flushes cfg evs -> whole_flushes cfg (evs ++ [(Close, true)]).

(** The end of a log after a call raised: the write itself, or the commit
    after the write. *)
Definition broken_flush (cfg : Config) (tail : list (SinkCall * bool)) : Prop :=
  exists sc,
    rows_in_limits cfg sc /\
    (tail = [(sc, false)] \/ tail = [(sc, true); (Commit, false)]).

Definition flushes (cfg : Config) (c0 c : Conn) : Prop :=
  exists evs, log c = log c0 ++ evs /\ whole_flushes cfg evs.

Definition pending (cfg : Config) (c0 c : Conn) : Prop :=
  exists evs sc,
    log c = log c0 ++ evs ++ [(sc, true)] /\
    whole_flushes cfg evs /\ rows_in_limits cfg sc.

Definition stopped (cfg : Config) (c0 : Conn) (e : Exn) (w : World) : Prop :=
  match e with
  | DbError =>
      exists evs tail,
        log (conn w) = log c0 ++ evs ++ tail /\
        whole_flushes cfg evs /\ broken_flush cfg tail
  | _ => flushes cfg c0 (conn w)
  end.

Lemma stopped_other cfg c0 e w :
  e <> DbError -> flushes cfg c0 (conn w) -> stopped cfg c0 e w.
Proof. intros He H. destruct e; auto. contradiction. Qed.

Lemma write_flushes cfg c0 sc effect w :
  flushes cfg c0 (conn w) ->
  rows_in_limits cfg sc ->
  (forall c, log (effect c) = log c) ->
  wp (sink_call sc effect) (fun _ w' => pending cfg c0 (conn w')) (stopped cfg c0) w.
Proof.
  intros (evs & Hlog & Hwf) Hsc Heff. apply wp_sink_call.
  - exists evs, [(sc, false)]. simpl. rewrite Hlog, <- app_assoc.
    split; [reflexivity |]. split; [exact Hwf |]. exists sc. auto.
  - exists evs, sc. simpl. rewrite Heff. simpl. rewrite Hlog, <- app_assoc. auto.
Qed.

Lemma commit_flushes cfg c0 w :
  pending cfg c0 (conn w) ->
  wp conn_commit (fun _ w' => flushes cfg c0 (conn w')) (stopped cfg c0) w.
Proof.
  intros (evs & sc & Hlog & Hwf & Hsc). unfold conn_commit. apply wp_sink_call.
  - exists evs, [(sc, true); (Commit, false)]. simpl.
    rewrite Hlog, <- !app_assoc. simpl.
    split; [reflexivity |]. split; [exact Hwf |]. exists sc. auto.
  - exists (evs ++ [(sc, true); (Commit, true)]). simpl.
    rewrite Hlog, <- !app_assoc. simpl.
    split; [reflexivity |]. now constructor.
Qed.

Lemma close_flushes cfg c0 w :
  flushes cfg c0 (conn w) ->
  wp conn_close (fun _ w' => flushes cfg c0 (conn w')) (stopped cfg c0) w.
Proof.
  intros (evs & Hlog & Hwf). apply wp_conn_close.
  exists (evs ++ [(Close, true)]). simpl. rewrite Hlog, <- app_assoc.
  split; [reflexivity |]. now constructor.
Qed.

Lemma gen_flushes {A} (m : M A) (P : A -> Prop) cfg c0 w (Q : A -> World -> Prop) :
  gen_only m P ->
  flushes cfg c0 (conn w) ->
  (forall a w', conn w' = conn w -> P a -> Q a w') ->
  wp m Q (stopped cfg c0) w.
Proof.
  intros Hm Hf HQ. eapply wp_gen; [exact Hm | exact HQ |].
  intros e w' Hc He. apply stopped_other; [exact He | now rewrite Hc].
Qed.

Lemma stored_length (n : nat) {R} (batch : list R) :
  List.length (combine (seq n (List.length batch)) batch) = List.length batch.
Proof. rewrite length_combine, length_seq. apply Nat.min_id. Qed.

Ltac batch_length :=
  cbn [snd fst List.length] in *; rewrite ?stored_length, ?length_app in *;
  cbn [List.length] in *; lia.

Lemma generate_practices_flushes cfg c0 w :
  flushes cfg c0 (conn w) ->
  wp (generate_practices cfg) (fun _ w' => flushes cfg c0 (conn w'))
     (stopped cfg c0) w.
Proof.
  intros H. unfold generate_practices, practices_loop. cbv zeta. apply wp_bind.
  eapply wp_mono;
    [apply (wp_for_each _
              (fun _ st w' => flushes cfg c0 (conn w') /\
                              List.length (snd st) < Nat.max 1 (practices_batch_size cfg))
              (stopped cfg c0) _ []); [split; [exact H | batch_length] |]
    | | auto].
  - intros pre i post [ids batch] w1 _ [Hinv Hlen].
    apply wp_bind.
    apply (gen_flushes _ _ cfg c0 w1 _ gen_make_practice Hinv).
    intros row w2 Hc _. rewrite <- Hc in Hinv.
    destruct (Nat.leb_spec (practices_batch_size cfg) (List.length (batch ++ [row])))
      as [Hfull | Hroom]; cbn [orb].
    2: destruct (Z.of_nat i =? Z.of_nat (NUM_PRACTICES cfg) - 1)%Z.
    3: { apply wp_ret. split; [exact Hinv | batch_length]. }
    all: apply wp_bind; unfold insert_practices;
      apply wp_bind, wp_conn_state, wp_bind;
      (eapply wp_mono;
       [apply (write_flushes cfg c0); [exact Hinv | | reflexivity] | | auto]);
      [ unfold rows_in_limits; batch_length
      | intros u w3 Hp; apply wp_ret, wp_bind;
        (eapply wp_mono; [apply commit_flushes; exact Hp | | auto]);
        intros u' w4 Hf; apply wp_ret; split; [exact Hf | batch_length] ].
  - intros [ids batch] w1 [Hinv _]. apply wp_ret. exact Hinv.
Qed.

Lemma generate_doctors_flushes env cfg c0 w :
  flushes cfg c0 (conn w) ->
  wp (generate_doctors env cfg) (fun _ w' => flushes cfg c0 (conn w'))
     (stopped cfg c0) w.
Proof.
  intros H. unfold generate_doctors, doctors_loop. cbv zeta. apply wp_bind.
  eapply wp_mono;
    [apply (wp_for_each _
              (fun _ st w' => flushes cfg c0 (conn w') /\
                              List.length (snd st) < Nat.max 1 (doctors_batch_size cfg))
              (stopped cfg c0) _ []); [split; [exact H | batch_length] |]
    | | auto].
  - intros pre i post [ids batch] w1 _ [Hinv Hlen].
    apply wp_bind.
    apply (gen_flushes _ _ cfg c0 w1 _ (gen_make_doctor env) Hinv).
    intros row w2 Hc _. rewrite <- Hc in Hinv.
    destruct (Nat.leb_spec (doctors_batch_size cfg) (List.length (batch ++ [row])))
      as [Hfull | Hroom]; cbn [orb].
    2: destruct (Z.of_nat i =? Z.of_nat (NUM_DOCTORS cfg) - 1)%Z.
    3: { apply wp_ret. split; [exact Hinv | batch_length]. }
    all: apply wp_bind; unfold insert_doctors;
      apply wp_bind, wp_conn_state, wp_bind;
      (eapply wp_mono;
       [apply (write_flushes cfg c0); [exact Hinv | | reflexivity] | | auto]);
      [ unfold rows_in_limits; batch_length
      | intros u w3 Hp; apply wp_ret, wp_bind;
        (eapply wp_mono; [apply commit_flushes; exact Hp | | auto]);
        intros u' w4 Hf; apply wp_ret; split; [exact Hf | batch_length] ].
  - intros [ids batch] w1 [Hinv _]. apply wp_ret. exact Hinv.
Qed.

Lemma doctor_licenses_loop_flushes env cfg c0 d n st w :
  flushes cfg c0 (conn w) ->
  List.length (fst st) < Nat.max 1 (licenses_batch_size cfg) ->
  wp (doctor_licenses_loop env cfg d n st)
     (fun st' w' => flushes cfg c0 (conn w') /\
                    List.length (fst st') < Nat.max 1 (licenses_batch_size cfg))
     (stopped cfg c0) w.
Proof.
  intros H Hlen0. unfold doctor_licenses_loop. cbv zeta.
  eapply wp_mono;
    [apply (wp_for_each _
              (fun _ st' w' => flushes cfg c0 (conn w') /\
                               List.length (fst st') < Nat.max 1 (licenses_batch_size cfg))
              (stopped cfg c0) _ []); [split; [exact H | exact Hlen0] |]
    | auto | auto].
  intros pre i post [batch count] w1 _ [Hinv Hlen].
  apply wp_bind.
  apply (gen_flushes _ _ cfg c0 w1 _ (gen_make_license env d) Hinv).
  intros row w2 Hc _. rewrite <- Hc in Hinv.
  destruct (Nat.leb_spec (licenses_batch_size cfg) (List.length (batch ++ [row])))
    as [Hfull | Hroom].
  - apply wp_bind. unfold insert_licenses.
    eapply wp_mono;
      [apply (write_flushes cfg c0); [exact Hinv | | reflexivity] | | auto].
    + unfold rows_in_limits. batch_length.
    + intros u w3 Hp. apply wp_bind.
      eapply wp_mono; [apply commit_flushes; exact Hp | | auto].
      intros u' w4 Hf. apply wp_ret. split; [exact Hf | batch_length].
  - apply wp_ret. split; [exact Hinv | batch_length].
Qed.

Lemma generate_licenses_flushes env cfg doctor_ids c0 w :
  flushes cfg c0 (conn w) ->
  wp (generate_licenses env cfg doctor_ids) (fun _ w' => flushes cfg c0 (conn w'))
     (stopped cfg c0) w.
Proof.
  intros H. unfold generate_licenses, licenses_loop. apply wp_bind.
  eapply wp_mono;
    [apply (wp_for_each _
              (fun _ st w' => flushes cfg c0 (conn w') /\
                              List.length (fst st) < Nat.max 1 (licenses_batch_size cfg))
              (stopped cfg c0) _ []); [split; [exact H | batch_length] |]
    | | auto].
  - intros pre d post st w1 _ [Hinv Hlen].
    apply wp_bind.
    apply (gen_flushes _ _ cfg c0 w1 _ (gen_randint _ _) Hinv).
    intros num w2 Hc _. rewrite <- Hc in Hinv.
    apply doctor_licenses_loop_flushes; assumption.
  - intros [batch count] w1 [Hinv Hlen]. destruct batch as [|row batch].
    + apply wp_ret. exact Hinv.
    + apply wp_bind. unfold insert_licenses.
      eapply wp_mono;
        [apply (write_flushes cfg c0); [exact Hinv | | reflexivity] | | auto].
      * unfold rows_in_limits. batch_length.
      * intros u w3 Hp. apply commit_flushes. exact Hp.
Qed.

Lemma doctor_associations_loop_flushes env cfg c0 d sampled st w :
  flushes cfg c0 (conn w) ->
  List.length (fst st) < Nat.max 1 (doctor_practices_batch_size cfg) ->
  wp (doctor_associations_loop env cfg d sampled st)
     (fun st' w' => flushes cfg c0 (conn w') /\
                    List.length (fst st')
                    < Nat.max 1 (doctor_practices_batch_size cfg))
     (stopped cfg c0) w.
Proof.
  intros H Hlen0. unfold doctor_associations_loop. cbv zeta.
  eapply wp_mono;
    [apply (wp_for_each _
              (fun _ st' w' => flushes cfg c0 (conn w') /\
                               List.length (fst st')
                               < Nat.max 1 (doctor_practices_batch_size cfg))
              (stopped cfg c0) _ []); [split; [exact H | exact Hlen0] |]
    | auto | auto].
  intros pre [i pid] post [batch count] w1 _ [Hinv Hlen].
  apply wp_bind.
  apply (gen_flushes _ _ cfg c0 w1 _ (gen_make_association env d i pid) Hinv).
  intros row w2 Hc _. rewrite <- Hc in Hinv.
  destruct (Nat.leb_spec (doctor_practices_batch_size cfg)
              (List.length (batch ++ [row]))) as [Hfull | Hroom].
  - apply wp_bind. unfold insert_doctor_practices.
    eapply wp_mono;
      [apply (write_flushes cfg c0); [exact Hinv | | reflexivity] | | auto].
    + unfold rows_in_limits. batch_length.
    + intros u w3 Hp. apply wp_bind.
      eapply wp_mono; [apply commit_flushes; exact Hp | | auto].
      intros u' w4 Hf. apply wp_ret. split; [exact Hf | batch_length].
  - apply wp_ret. split; [exact Hinv | batch_length].
Qed.

Lemma generate_doctor_practices_flushes env cfg doctor_ids practice_ids c0 w :
  flushes cfg c0 (conn w) ->
  wp (generate_doctor_practices env cfg doctor_ids practice_ids)
     (fun _ w' => flushes cfg c0 (conn w')) (stopped cfg c0) w.
Proof.
  intros H. unfold generate_doctor_practices, associations_loop. apply wp_bind.
  eapply wp_mono;
    [apply (wp_for_each _
              (fun _ st w' => flushes cfg c0 (conn w') /\
                              List.length (fst st)
                              < Nat.max 1 (doctor_practices_batch_size cfg))
              (stopped cfg c0) _ []); [split; [exact H | batch_length] |]
    | | auto].
  - intros pre d post st w1 _ [Hinv Hlen].
    apply wp_bind.
    apply (gen_flushes _ _ cfg c0 w1 _ (gen_randint _ _) Hinv).
    intros num w2 Hc _. rewrite <- Hc in Hinv.
    apply wp_bind.
    apply (gen_flushes _ _ cfg c0 w2 _ (gen_sample _ _) Hinv).
    intros sampled w3 Hc' _. rewrite <- Hc' in Hinv.
    apply doctor_associations_loop_flushes; assumption.
  - intros [batch count] w1 [Hinv Hlen]. destruct batch as [|row batch].
    + apply wp_ret. exact Hinv.
    + apply wp_bind. unfold insert_doctor_practices.
      eapply wp_mono;
        [apply (write_flushes cfg c0); [exact Hinv | | reflexivity] | | auto].
      * unfold rows_in_limits. batch_length.
      * intros u w3 Hp. apply commit_flushes. exact Hp.
Qed.

Lemma main_flushes env cfg reachable answer w :
  wp (main env cfg reachable answer)
     (fun _ w' => flushes cfg (conn w) (conn w')) (stopped cfg (conn w)) w.
Proof.
  assert (H0 : flushes cfg (conn w) (conn w)).
  { exists []. rewrite app_nil_r. split; [reflexivity | constructor]. }
  unfold main. apply wp_bind. unfold connect_to_db.
  destruct reachable; [apply wp_ret | apply wp_raise; exact H0].
  destruct (negb _).
  - apply wp_bind.
    eapply wp_mono; [apply close_flushes; exact H0 | | auto].
    intros u w1 H1. apply wp_ret. exact H1.
  - apply wp_bind. unfold clear_tables. apply wp_bind. unfold execute_truncate.
    eapply wp_mono;
      [apply (write_flushes cfg (conn w)); [exact H0 | exact I | reflexivity]
      | | auto].
    intros u1 w1 H1. cbv beta.
    eapply wp_mono; [apply commit_flushes; exact H1 | | auto].
    intros u2 w2 H2. cbv beta. apply wp_bind.
    eapply wp_mono; [apply generate_practices_flushes; exact H2 | | auto].
    intros practice_ids w3 H3. cbv beta in *. apply wp_bind.
    eapply wp_mono; [apply generate_doctors_flushes; exact H3 | | auto].
    intros doctor_ids w4 H4. cbv beta in *. apply wp_bind.
    eapply wp_mono; [apply generate_licenses_flushes; exact H4 | | auto].
    intros u5 w5 H5. cbv beta in *. apply wp_bind.
    eapply wp_mono; [apply generate_doctor_practices_flushes; exact H5 | | auto].
    intros u6 w6 H6. cbv beta in *. apply wp_bind.
    eapply wp_mono; [apply close_flushes; exact H6 | | auto].
    intros u7 w7 H7. apply wp_ret. exact H7.
Qed.

(* ================================================================== *)
(** * A call that raises ends the run *)

Lemma whole_flushes_returned cfg evs :
  whole_flushes cfg evs -> Forall returned evs.
Proof.
  induction 1 as [|evs sc _ IH _|evs _ IH].
  - constructor.
  - apply Forall_app. split; [exact IH |]. repeat constructor.
  - apply Forall_app. split; [exact IH |]. repeat constructor.
Qed.

(** In a log whose calls all returned but the last, a call that raised is
    the last one. *)
Lemma raised_call_is_last (evs : list (SinkCall * bool)) x :
  Forall returned evs ->
  forall before failed after,
    evs ++ [x] = before ++ (failed, false) :: after -> after = [].
Proof.
  induction 1 as [|ev evs Hev _ IH]; intros before failed after Heq.
  - destruct before as [|b before]; simpl in Heq.
    + now inversion Heq.
    + inversion Heq as [[Hb Hrest]]. destruct before; discriminate.
  - destruct before as [|b before]; simpl in Heq.
    + inversion Heq as [[Hb Hrest]]. subst ev. discriminate.
    + inversion Heq as [[Hb Hrest]]. eapply IH; eauto.
Qed.

Lemma all_returned_none_raised (evs : list (SinkCall * bool)) before failed after :
  Forall returned evs -> evs <> before ++ (failed, false) :: after.
Proof.
  intros Hret ->. apply Forall_app in Hret. destruct Hret as [_ Hret].
  inversion Hret as [|? ? Hfailed _]. discriminate.
Qed.

(** C8. A call on the connection that raises ends the run, and nothing
    else does so with a database error.

    However [main] ends, look at the calls it has logged.  When it returns,
    and when it ends with any exception other than a database error, every
    call it made returned.  When it ends with a database error, the call
    that raised is the last entry of the log and every call before it
    returned: nothing was retried and nothing was attempted afterwards; the
    committed tables are exactly what the calls that returned made them, so
    every batch committed before the failure is still there; the calls came
    stage by stage, and when the call that raised inserts licenses, or is
    the commit straight after such an insert, no insert of associations was
    ever attempted.

    So a call that raised, wherever it stands in the log, is the last call
    of the run, and the run ends with the database error: [main] neither
    returns after it nor goes on. *)
Theorem flush_failure_ends_the_run env cfg reachable answer w r :
  main env cfg reachable answer w = r ->
  match r with
  | Raise DbError w' =>
      exists evs failed,
        log (conn w') = log (conn w) ++ evs ++ [(failed, false)] /\
        Forall (fun ev => snd ev = true) evs /\
        replay evs (committed (conn w), working (conn w))
        = (committed (conn w'), working (conn w')) /\
        in_stage_order 0 (map fst evs ++ [failed]) = true /\
        (forall rows,
           failed = InsertLicenses rows \/
           (failed = Commit /\
            exists evs', evs = evs' ++ [(InsertLicenses rows, true)]) ->
           forall ev rows', In ev evs -> fst ev <> InsertDoctorPractices rows')
  | Ok _ w' =>
      exists evs,
        log (conn w') = log (conn w) ++ evs /\
        Forall (fun ev => snd ev = true) evs /\
        replay evs (committed (conn w), working (conn w))
        = (committed (conn w'), working (conn w')) /\
        in_stage_order 0 (map fst evs) = true
  | Raise _ w' =>
      exists evs,
        log (conn w') = log (conn w) ++ evs /\
        Forall (fun ev => snd ev = true) evs
  end /\
  (forall before failed after,
     log (conn (final_world r))
     = log (conn w) ++ before ++ (failed, false) :: after ->
     after = [] /\ r = Raise DbError (final_world r)).
Proof.
  pose proof (main_logged env cfg reachable answer w) as Hlogged.
  pose proof (main_flushes env cfg reachable answer w) as Hflushes.
  unfold wp in Hlogged, Hflushes. intros <-.
  destruct (main env cfg reachable answer w) as [o w'|e w']; simpl.
  - destruct Hlogged as (evs & Hlog & Hret & Hrep & _ & Hord). split.
    + exists evs. auto.
    + intros before failed after Heq. exfalso.
      rewrite Hlog in Heq. apply app_inv_head in Heq.
      exact (all_returned_none_raised _ _ _ _ Hret Heq).
  - assert (Hother : e <> DbError ->
                     exists evs,
                       log (conn w') = log (conn w) ++ evs /\ Forall returned evs).
    { intros He. destruct e; try contradiction;
        destruct Hflushes as (evs & Hlog & Hwf); exists evs;
        (split; [exact Hlog | exact (whole_flushes_returned _ _ Hwf)]). }
    destruct e;
      try (destruct Hother as (evs & Hlog & Hret); [discriminate |];
           split; [exists evs; auto |];
           intros before failed after Heq; exfalso;
           rewrite Hlog in Heq; apply app_inv_head in Heq;
           exact (all_returned_none_raised _ _ _ _ Hret Heq)).
    destruct (Hlogged eq_refl) as (evs & failed & Hlog & Hret & Hrep & Hord).
    split.
    + exists evs, failed.
      split; [exact Hlog |]. split; [exact Hret |]. split; [exact Hrep |].
      split; [exact Hord |].
      intros rows Hfailed ev rows' Hin Hev.
      destruct Hfailed as [-> | [-> (evs' & ->)]].
      * assert (Hle : 4 <= 3); [| lia].
        apply (in_stage_order_before 0 (map fst evs) (InsertLicenses rows) [] 3 Hord
                 eq_refl (fst ev)); [apply in_map; exact Hin | now rewrite Hev].
      * rewrite map_app in Hord. simpl in Hord. rewrite <- app_assoc in Hord.
        simpl in Hord.
        apply in_app_or in Hin. destruct Hin as [Hin | [<- | []]]; [| discriminate].
        assert (Hle : 4 <= 3); [| lia].
        apply (in_stage_order_before 0 (map fst evs') (InsertLicenses rows) [Commit] 3
                 Hord eq_refl (fst ev)); [apply in_map; exact Hin | now rewrite Hev].
    + intros before failed' after Heq. split; [| reflexivity].
      rewrite Hlog in Heq. apply app_inv_head in Heq.
      exact (raised_call_is_last _ _ Hret _ _ _ Heq).
Qed.

(** On the plan of the example the third insert of licenses raises: it is
    the last call of the log and [main] ends with the database error. *)
Lemma flush_failure_ends_the_run_witness :
  exists r,
    main example_env small_config true "y" third_license_flush_fails = r /\
    exists before rows,
      log (conn (final_world r))
      = log (conn third_license_flush_fails)
        ++ before ++ (InsertLicenses rows, false) :: [] /\
      ([] = @nil (SinkCall * bool) /\ r = Raise DbError (final_world r)).
Proof.
  eexists. split; [vm_compute; reflexivity |].
  match goal with
  | |- exists before rows, log (conn (final_world ?r)) = _ /\ _ =>
      exists (removelast (log (conn (final_world r))))
  end.
  eexists.
  match goal with
  | |- ?L /\ _ => assert (Hlog : L) by (vm_compute; reflexivity)
  end.
  split; [exact Hlog |].
  refine (proj2 (flush_failure_ends_the_run example_env small_config true "y"
                   third_license_flush_fails _ _) _ _ [] Hlog).
  vm_compute. reflexivity.
Defined.

(** Whatever [main] does and however it ends, the calls it has made on the
    connection are whole flushes: a write that returned, followed at once by
    its own commit; every insert carries at least one row and at most the
    batch size of its table.  Only when a call raised does the log end with
    a broken flush, the failed write or the failed commit of a write. *)
Theorem every_write_is_committed_at_once env cfg reachable answer w :
  let r := main env cfg reachable answer w in
  exists evs tail,
    log (conn (final_world r)) = log (conn w) ++ evs ++ tail /\
    whole_flushes cfg evs /\
    match r with
    | Raise DbError _ => broken_flush cfg tail
    | _ => tail = []
    end.
Proof.
  pose proof (main_flushes env cfg reachable answer w) as H. unfold wp in H.
  cbv zeta. destruct (main env cfg reachable answer w) as [o w'|e w']; simpl.
  - destruct H as (evs & Hlog & Hwf). exists evs, []. rewrite app_nil_r. auto.
  - destruct e; [| | exact H |];
      destruct H as (evs & Hlog & Hwf); exists evs, []; rewrite app_nil_r; auto.
Qed.

(* ================================================================== *)
(** * [create_indexes]

    [main] does not call this function (the call is commented out).  It
    sends five [CREATE INDEX IF NOT EXISTS] statements and commits.  The
    catalog of indexes is no part of [Conn]; it gets a connection record of
    its own, with the same plan of failing calls. *)

Record Index := mkIndex {
  index_name : string;
  index_table : string;
  index_column : string
}.

Record IndexConn := mkIndexConn {
  committed_indexes : list Index;
  working_indexes : list Index;
  index_faults : list bool
}.

(** The five statements of the function, in its order. *)
Definition ADDITIONAL_INDEXES : list Index :=
  [mkIndex "idx_practices_name" "practices" "practice_name";
   mkIndex "idx_licenses_state" "licenses" "state";
   mkIndex "idx_licenses_status" "licenses" "status";
   mkIndex "idx_doctors_specialty" "doctors" "specialty";
   mkIndex "idx_doctor_practices_end_date" "doctor_practices" "end_date"].

Definition has_index (name : string) (l : list Index) : bool :=
  existsb (fun ix => String.eqb (index_name ix) name) l.

(** [CREATE INDEX IF NOT EXISTS name ON table(column)]: nothing happens
    when an index of that name is there.  [inl] is the connection after the
    statement returned, [inr] the connection after it raised. *)
Definition create_index_if_not_exists (ix : Index) (c : IndexConn)
  : IndexConn + IndexConn :=
  if hd false (index_faults c)
  then inr (mkIndexConn (committed_indexes c) (working_indexes c)
              (tl (index_faults c)))
  else inl (mkIndexConn (committed_indexes c)
              (if has_index (index_name ix) (working_indexes c)
               then working_indexes c
               else working_indexes c ++ [ix])
              (tl (index_faults c))).

Definition index_commit (c : IndexConn) : IndexConn + IndexConn :=
  if hd false (index_faults c)
  then inr (mkIndexConn (committed_indexes c) (working_indexes c)
              (tl (index_faults c)))
  else inl (mkIndexConn (working_indexes c) (working_indexes c)
              (tl (index_faults c))).

Fixpoint execute_each (l : list Index) (c : IndexConn) : IndexConn + IndexConn :=
  match l with
  | [] => inl c
  | ix :: l' =>
      match create_index_if_not_exists ix c with
      | inl c' => execute_each l' c'
      | inr c' => inr c'
      end
  end.

Definition create_indexes (c : IndexConn) : IndexConn + IndexConn :=
  match execute_each ADDITIONAL_INDEXES c with
  | inl c' => index_commit c'
  | inr c' => inr c'
  end.

Lemma has_index_app name l1 l2 :
  has_index name (l1 ++ l2) = has_index name l1 || has_index name l2.
Proof. apply existsb_app. Qed.

Lemma execute_each_returns l :
  forall c c',
    execute_each l c = inl c' ->
    committed_indexes c' = committed_indexes c /\
    (exists added,
       working_indexes c' = working_indexes c ++ added /\ incl added l) /\
    (forall ix, In ix l ->
                has_index (index_name ix) (working_indexes c') = true).
Proof.
  induction l as [|ix l IH]; simpl; intros c c' H.
  - inversion H; subst. split; [reflexivity |]. split; [| contradiction].
    exists []. rewrite app_nil_r. split; [reflexivity | intros x []].
  - unfold create_index_if_not_exists in H.
    destruct (hd false (index_faults c)); [discriminate |].
    apply IH in H. simpl in H. destruct H as (Hc & (added & Hw & Hincl) & Hall).
    split; [exact Hc |]. split.
    + destruct (has_index (index_name ix) (working_indexes c)).
      * exists added. split; [exact Hw |]. intros x Hx. right. auto.
      * exists (ix :: added). rewrite Hw, <- app_assoc. split; [reflexivity |].
        intros x [<- | Hx]; [now left | right; auto].
    + intros x [<- | Hx]; [| auto].
      rewrite Hw.
      destruct (has_index (index_name ix) (working_indexes c)) eqn:Hhas.
      * rewrite has_index_app, Hhas. reflexivity.
      * rewrite !has_index_app. simpl. rewrite String.eqb_refl. simpl.
        now rewrite orb_true_r.
Qed.

Lemma execute_each_raises l :
  forall c c',
    execute_each l c = inr c' -> committed_indexes c' = committed_indexes c.
Proof.
  induction l as [|ix l IH]; simpl; intros c c' H; [discriminate |].
  unfold create_index_if_not_exists in H.
  destruct (hd false (index_faults c)).
  - inversion H. reflexivity.
  - apply IH in H. exact H.
Qed.

Lemma execute_each_nothing_to_do l :
  forall c,
    index_faults c = [] ->
    (forall ix, In ix l -> has_index (index_name ix) (working_indexes c) = true) ->
    execute_each l c = inl c.
Proof.
  induction l as [|ix l IH]; simpl; intros c Hf Hall; [reflexivity |].
  unfold create_index_if_not_exists. rewrite Hf. simpl.
  rewrite (Hall ix) by now left.
  rewrite <- Hf at 1.
  replace (mkIndexConn (committed_indexes c) (working_indexes c) (index_faults c))
    with c by (destruct c; reflexivity).
  apply IH; auto.
Qed.

(** The indexes of [l] that a catalog has no index of the same name for. *)
Definition missing_from (catalog l : list Index) : list Index :=
  filter (fun ix => negb (has_index (index_name ix) catalog)) l.

Lemma execute_each_adds l :
  forall c c',
    NoDup (map index_name l) ->
    execute_each l c = inl c' ->
    working_indexes c' = working_indexes c ++ missing_from (working_indexes c) l.
Proof.
  induction l as [|ix l IH]; simpl; intros c c' Hnd H.
  - inversion H; subst. unfold missing_from. simpl. now rewrite app_nil_r.
  - inversion Hnd as [|? ? Hnotin Hnd']; subst.
    unfold create_index_if_not_exists in H.
    destruct (hd false (index_faults c)); [discriminate |].
    apply IH in H; [| exact Hnd']. simpl in H. rewrite H.
    unfold missing_from. simpl.
    destruct (has_index (index_name ix) (working_indexes c)) eqn:Hhas; simpl;
      [reflexivity |].
    rewrite <- app_assoc. simpl. do 2 f_equal.
    apply filter_ext_in. intros ix' Hin. f_equal.
    rewrite has_index_app. simpl. rewrite orb_false_r.
    destruct (String.eqb (index_name ix) (index_name ix')) eqn:Hsame;
      [| now rewrite orb_false_r].
    exfalso. apply String.eqb_eq in Hsame. apply Hnotin. rewrite Hsame.
    apply in_map, Hin.
Qed.

Lemma ADDITIONAL_INDEXES_names : NoDup (map index_name ADDITIONAL_INDEXES).
Proof.
  unfold ADDITIONAL_INDEXES. simpl.
  repeat (constructor; [simpl; intros H; repeat destruct H as [H | H];
                        try discriminate; exact H |]).
  constructor.
Qed.

(** [create_indexes] is all or nothing and adds exactly what is missing:
    when it returns, the committed catalog is the catalog of the
    transaction it started from, in the same order, followed by those of
    the five indexes, in the order of the statements, whose names were not
    there, and by nothing else; each of the five names is now there.  When
    it raises, the committed catalog is as it was. *)
Theorem create_indexes_adds_what_is_missing c :
  match create_indexes c with
  | inl c' =>
      working_indexes c' = committed_indexes c' /\
      committed_indexes c'
      = working_indexes c ++ missing_from (working_indexes c) ADDITIONAL_INDEXES /\
      (forall ix, In ix ADDITIONAL_INDEXES ->
                  has_index (index_name ix) (committed_indexes c') = true)
  | inr c' => committed_indexes c' = committed_indexes c
  end.
Proof.
  unfold create_indexes.
  destruct (execute_each ADDITIONAL_INDEXES c) as [c1|c1] eqn:Hrun.
  - pose proof (execute_each_adds _ _ _ ADDITIONAL_INDEXES_names Hrun) as Hadded.
    apply execute_each_returns in Hrun. destruct Hrun as (Hc & _ & Hall).
    unfold index_commit. destruct (hd false (index_faults c1)); simpl; auto.
  - eapply execute_each_raises; eauto.
Qed.

(** Running [create_indexes] again changes nothing: with no failing call,
    a second run right after a run that returned returns the very same
    connection. *)
Theorem create_indexes_twice c c' :
  index_faults c = [] ->
  create_indexes c = inl c' ->
  create_indexes c' = inl c'.
Proof.
  intros Hf Hrun.
  unfold create_indexes in *.
  destruct (execute_each ADDITIONAL_INDEXES c) as [c1|c1] eqn:Hfirst;
    [| discriminate].
  assert (Hf1 : index_faults c1 = []).
  { clear - Hf Hfirst. revert c c1 Hf Hfirst.
    induction ADDITIONAL_INDEXES as [|ix l IH]; simpl; intros c c1 Hf H.
    - inversion H; subst. exact Hf.
    - unfold create_index_if_not_exists in H. rewrite Hf in H. simpl in H.
      apply IH in H; [exact H | reflexivity]. }
  apply execute_each_returns in Hfirst. destruct Hfirst as (_ & _ & Hall).
  unfold index_commit in Hrun. rewrite Hf1 in Hrun. simpl in Hrun.
  inversion Hrun; subst c'. clear Hrun.
  rewrite execute_each_nothing_to_do; [| reflexivity | exact Hall].
  reflexivity.
Qed.

Lemma create_indexes_twice_witness :
  exists c',
    create_indexes
      (mkIndexConn [] [mkIndex "idx_licenses_state" "licenses" "state"] [])
    = inl c' /\
    create_indexes c' = inl c'.
Proof.
  eexists. split; [vm_compute; reflexivity |].
  apply (create_indexes_twice
           (mkIndexConn [] [mkIndex "idx_licenses_state" "licenses" "state"] []));
    vm_compute; reflexivity.
Defined.
